(** * Coherent Reconstruction Pipeline: streaming job controller and audit log

    A shallow embedding of the job controller of the streaming
    reconstruction service (the WebSocket server on [/ws/cc-stream]), of
    the audit service ([server/services/auditService.ts]) and of the message
    handler of the streaming modal of the client.

    Conventions of the embedding.
    - A JavaScript [number] is an IEEE 754 binary64 value ([spec_float] with
      precision 53 and maximal exponent 1024).  Counts and indices, which
      the code only ever obtains from [.length], from a loop counter or from
      a serial column, are [nat].
    - A JavaScript string is a [string]: a sequence of code units, here the
      code units below 256.
    - The relational store is a pair of tables held as lists of rows in
      insertion order; a query with [orderBy] is a stable sort.
    - The process state (the two module-level [Map]s) and the messages put
      on the sockets are part of the [World] that every handler threads.
    - The collaborators that live in [./crossChunkCoherence] (the chunker,
      the skeleton extractor, the chunk reconstructor, the stitcher, the
      length configuration) are fields of an environment record [Env]: a
      deterministic stub of the language model. *)

From Stdlib Require Import ZArith String Ascii Bool Lia DecimalString.
From Corelib Require Import SpecFloat.
From stdpp Require Import base option list gmap sorting.

Local Open Scope nat_scope.

(* ===================================================================== *)
(** ** JavaScript numbers *)
(* ===================================================================== *)

Module JsNumber.

Abbreviation number := spec_float.

Definition prec : Z := 53.
Definition emax : Z := 1024.

(** The number denoted by an integer literal or held by an integer. *)
Definition ofZ (z : Z) : number := binary_normalize prec emax z 0 false.
Definition ofNat (n : nat) : number := ofZ (Z.of_nat n).

Definition mul : number -> number -> number := SFmul prec emax.
Definition div : number -> number -> number := SFdiv prec emax.
Definition sub : number -> number -> number := SFsub prec emax.
Definition add : number -> number -> number := SFadd prec emax.

(** [x < y], [x <= y], [x > y], [x >= y]: false as soon as one side is NaN. *)
Definition lt (x y : number) : bool := SFltb x y.
Definition le (x y : number) : bool := SFleb x y.
Definition gt (x y : number) : bool := SFltb y x.
Definition ge (x y : number) : bool := SFleb y x.

(** The decimal literals of the source: the binary64 value nearest to the
    decimal, which is what correctly rounded division of the two integers
    yields. *)
Definition lit_0_85 : number := Eval vm_compute in div (ofZ 85) (ofZ 100).
Definition lit_1_15 : number := Eval vm_compute in div (ofZ 115) (ofZ 100).

Definition signed (s : bool) (m : positive) : Z :=
  if s then Z.neg m else Z.pos m.

(** [Math.floor], [Math.ceil], [Math.round] (nearest integer, ties towards
    +infinity).  NaN and the infinities are returned unchanged.  The sign of
    a zero result is not tracked: no caller observes it. *)
Definition Math_floor (x : number) : number :=
  match x with
  | S754_finite s m e =>
      ofZ (if (0 <=? e)%Z then (signed s m * 2 ^ e)%Z
           else (signed s m / 2 ^ (- e))%Z)
  | _ => x
  end.

Definition Math_ceil (x : number) : number :=
  match x with
  | S754_finite s m e =>
      ofZ (if (0 <=? e)%Z then (signed s m * 2 ^ e)%Z
           else (- ((- signed s m) / 2 ^ (- e)))%Z)
  | _ => x
  end.

Definition Math_round (x : number) : number :=
  match x with
  | S754_finite s m e =>
      ofZ (if (0 <=? e)%Z then (signed s m * 2 ^ e)%Z
           else ((2 * signed s m + 2 ^ (- e)) / 2 ^ (- e + 1))%Z)
  | _ => x
  end.

End JsNumber.

Import JsNumber.

(* ===================================================================== *)
(** ** JavaScript strings: [trim], [split(/\s+/)], [join], [countWords] *)
(* ===================================================================== *)

Module JsString.

(** The code units below 256 matched by [\s] (and stripped by [trim]):
    TAB, LF, VT, FF, CR, SPACE and NO-BREAK SPACE. *)
Definition isSpace (c : ascii) : bool :=
  let n := nat_of_ascii c in
  ((9 <=? n) && (n <=? 13)) || (n =? 32) || (n =? 160).

Fixpoint trimStart (s : string) : string :=
  match s with
  | String c r => if isSpace c then trimStart r else s
  | EmptyString => EmptyString
  end.

(** [trimEnd s]: the empty string when [s] is all white space. *)
Fixpoint trimEnd (s : string) : string :=
  match s with
  | String c r =>
      match trimEnd r with
      | EmptyString => if isSpace c then EmptyString else String c EmptyString
      | r' => String c r'
      end
  | EmptyString => EmptyString
  end.

Definition trim (s : string) : string := trimEnd (trimStart s).

(** [s.split(/\s+/)]: the pieces between the maximal runs of white space.
    [cur] is the piece being read, reversed; [inSep] tells that the
    previous code unit belonged to a separator. *)
Fixpoint splitWsAux (cur : list ascii) (inSep : bool) (s : string)
  : list string :=
  match s with
  | EmptyString => [string_of_list_ascii (rev cur)]
  | String c r =>
      if isSpace c then
        if inSep then splitWsAux [] true r
        else string_of_list_ascii (rev cur) :: splitWsAux [] true r
      else splitWsAux (c :: cur) false r
  end.

Definition splitWs (s : string) : list string := splitWsAux [] false s.

Definition nonEmpty (s : string) : bool :=
  match s with EmptyString => false | _ => true end.

(** [countWords]: [text.trim().split(/\s+/).filter(w => w.length > 0).length] *)
Definition countWords (text : string) : nat :=
  length (List.filter nonEmpty (splitWs (trim text))).

(** [arr.join(sep)] *)
Fixpoint join (sep : string) (l : list string) : string :=
  match l with
  | [] => EmptyString
  | [x] => x
  | x :: r => (x ++ sep ++ join sep r)%string
  end.

Definition nl : string := String (ascii_of_nat 10) EmptyString.
Definition nlnl : string := (nl ++ nl)%string.

(** A text of [n] words. *)
Fixpoint words (n : nat) : string :=
  match n with
  | O => EmptyString
  | S k => String "w"%char (String " "%char (words k))
  end.

End JsString.

Import JsString.


(* ===================================================================== *)
(** ** Data model: the rows of the two tables *)
(* ===================================================================== *)

(** A JSONB value the controller never looks into (the global skeleton, the
    stitch result), held as its JSON text. *)
Abbreviation Json := string (only parsing).

(** [reconstruction_documents.status] *)
Inductive JobStatus :=
| JPending | JSkeletonExtraction | JChunkProcessing | JStitching
| JComplete | JFailed | JAborted.

(** [reconstruction_chunks.status] *)
Inductive ChunkStatus := CPending | CProcessing | CComplete | CFailed.

#[global] Instance JobStatus_eq_dec : EqDecision JobStatus.
Proof. solve_decision. Defined.
#[global] Instance ChunkStatus_eq_dec : EqDecision ChunkStatus.
Proof. solve_decision. Defined.

Record Conflict := {
  description : string;
  withChunk : nat;
  severity : string
}.

Record LedgerAddition := {
  fact : string;
  source_chunk : nat
}.

(** [ChunkDelta]: what a chunk added to the shared context.  Every field may
    be missing from the JSON object. *)
Record ChunkDelta := {
  newClaimsIntroduced : option (list string);
  termsUsed : option (list string);
  conflictsDetected : option (list Conflict);
  ledgerAdditions : option (list LedgerAddition)
}.

(** The object [{}]. *)
Definition emptyDelta : ChunkDelta :=
  {| newClaimsIntroduced := None; termsUsed := None;
     conflictsDetected := None; ledgerAdditions := None |}.

Record LengthConfig := {
  targetMin : number;
  targetMax : number;
  targetMid : number;
  lengthRatio : number;
  lengthMode : string;
  chunkTargetWords : number
}.

(** A row of [reconstruction_documents]: a job. *)
Record DocRow := {
  doc_id : nat;
  originalText : string;
  wordCount : nat;
  doc_status : JobStatus;
  lengthConfig : LengthConfig;
  numChunks : nat;
  currentChunk : nat;
  audienceParameters : option string;
  rigorLevel : option string;
  customInstructions : option string;
  globalSkeleton : option Json;
  finalOutput : option string;
  finalWordCount : option nat;
  validationResult : option Json;
  errorMessage : option string;
  updatedAt : Z
}.

(** A row of [reconstruction_chunks].  Its time stamps are written and never
    read: they are left out. *)
Record ChunkRow := {
  chunk_id : nat;
  documentId : nat;
  chunkIndex : nat;
  chunkInputText : string;
  chunkInputWords : number;
  targetWords : number;
  minWords : number;
  maxWords : number;
  chunkOutputText : option string;
  actualWords : option nat;
  chunkDelta : option ChunkDelta;
  chunk_status : ChunkStatus
}.

(** [.set({ status, updatedAt })] on a document. *)
Definition doc_setStatus (st : JobStatus) (t : Z) (d : DocRow) : DocRow :=
  {| doc_id := doc_id d; originalText := originalText d;
     wordCount := wordCount d; doc_status := st;
     lengthConfig := lengthConfig d; numChunks := numChunks d;
     currentChunk := currentChunk d;
     audienceParameters := audienceParameters d; rigorLevel := rigorLevel d;
     customInstructions := customInstructions d;
     globalSkeleton := globalSkeleton d; finalOutput := finalOutput d;
     finalWordCount := finalWordCount d;
     validationResult := validationResult d;
     errorMessage := errorMessage d; updatedAt := t |}.

(** [.set({ globalSkeleton, status: 'chunk_processing', updatedAt })] *)
Definition doc_setSkeleton (sk : Json) (t : Z) (d : DocRow) : DocRow :=
  {| doc_id := doc_id d; originalText := originalText d;
     wordCount := wordCount d; doc_status := JChunkProcessing;
     lengthConfig := lengthConfig d; numChunks := numChunks d;
     currentChunk := currentChunk d;
     audienceParameters := audienceParameters d; rigorLevel := rigorLevel d;
     customInstructions := customInstructions d;
     globalSkeleton := Some sk; finalOutput := finalOutput d;
     finalWordCount := finalWordCount d;
     validationResult := validationResult d;
     errorMessage := errorMessage d; updatedAt := t |}.

(** [.set({ currentChunk, updatedAt })] *)
Definition doc_setCurrentChunk (k : nat) (t : Z) (d : DocRow) : DocRow :=
  {| doc_id := doc_id d; originalText := originalText d;
     wordCount := wordCount d; doc_status := doc_status d;
     lengthConfig := lengthConfig d; numChunks := numChunks d;
     currentChunk := k;
     audienceParameters := audienceParameters d; rigorLevel := rigorLevel d;
     customInstructions := customInstructions d;
     globalSkeleton := globalSkeleton d; finalOutput := finalOutput d;
     finalWordCount := finalWordCount d;
     validationResult := validationResult d;
     errorMessage := errorMessage d; updatedAt := t |}.

(** [.set({ finalOutput, finalWordCount, validationResult, status: 'complete', updatedAt })] *)
Definition doc_setFinal (out : string) (wc : nat) (v : Json) (t : Z)
  (d : DocRow) : DocRow :=
  {| doc_id := doc_id d; originalText := originalText d;
     wordCount := wordCount d; doc_status := JComplete;
     lengthConfig := lengthConfig d; numChunks := numChunks d;
     currentChunk := currentChunk d;
     audienceParameters := audienceParameters d; rigorLevel := rigorLevel d;
     customInstructions := customInstructions d;
     globalSkeleton := globalSkeleton d; finalOutput := Some out;
     finalWordCount := Some wc;
     validationResult := Some v;
     errorMessage := errorMessage d; updatedAt := t |}.

(** [.set({ status: 'failed', errorMessage, updatedAt })] *)
Definition doc_setFailed (msg : string) (t : Z) (d : DocRow) : DocRow :=
  {| doc_id := doc_id d; originalText := originalText d;
     wordCount := wordCount d; doc_status := JFailed;
     lengthConfig := lengthConfig d; numChunks := numChunks d;
     currentChunk := currentChunk d;
     audienceParameters := audienceParameters d; rigorLevel := rigorLevel d;
     customInstructions := customInstructions d;
     globalSkeleton := globalSkeleton d; finalOutput := finalOutput d;
     finalWordCount := finalWordCount d;
     validationResult := validationResult d;
     errorMessage := Some msg; updatedAt := t |}.

(** [.set({ status: 'processing', updatedAt })] on a chunk. *)
Definition chunk_setProcessing (c : ChunkRow) : ChunkRow :=
  {| chunk_id := chunk_id c; documentId := documentId c;
     chunkIndex := chunkIndex c; chunkInputText := chunkInputText c;
     chunkInputWords := chunkInputWords c; targetWords := targetWords c;
     minWords := minWords c; maxWords := maxWords c;
     chunkOutputText := chunkOutputText c; actualWords := actualWords c;
     chunkDelta := chunkDelta c; chunk_status := CProcessing |}.

(** [.set({ chunkOutputText, actualWords, chunkDelta, status: 'complete', updatedAt })];
    [stored] is what the JSONB column holds once the write is committed. *)
Definition chunk_setComplete (out : string) (words : nat)
  (stored : option ChunkDelta) (c : ChunkRow) : ChunkRow :=
  {| chunk_id := chunk_id c; documentId := documentId c;
     chunkIndex := chunkIndex c; chunkInputText := chunkInputText c;
     chunkInputWords := chunkInputWords c; targetWords := targetWords c;
     minWords := minWords c; maxWords := maxWords c;
     chunkOutputText := Some out; actualWords := Some words;
     chunkDelta := stored; chunk_status := CComplete |}.

(* ===================================================================== *)
(** ** Messages, process state and the world *)
(* ===================================================================== *)

(** [${n}] for a count. *)
Definition showNat (n : nat) : string := NilZero.string_of_uint (Nat.to_uint n).

Inductive ProgressPhase :=
| PhInitializing | PhSkeletonExtraction | PhChunkProcessing | PhStitching
| PhComplete | PhFailed | PhAborted.

Inductive ChunkVerdict := on_target | retrying | passed_after_retry | flagged.

Record ChunkCompleteMessage := {
  cc_jobId : nat;
  cc_chunkIndex : nat;
  cc_totalChunks : nat;
  cc_chunkText : string;
  cc_actualWords : nat;
  cc_targetWords : number;
  cc_minWords : number;
  cc_maxWords : number;
  cc_runningTotal : nat;
  cc_projectedFinal : number;
  cc_status : ChunkVerdict
}.

(** The optional statistics of a [progress] message. *)
Record ProgressStats := {
  ps_completedChunks : nat;
  ps_totalChunks : nat;
  ps_wordsProcessed : nat;
  ps_targetWords : number;
  ps_projectedFinal : number;
  ps_timeElapsed : Z;
  ps_estimatedRemaining : number
}.

(** [WarningMessage], without its human-readable [message] text. *)
Record WarningMessage := {
  wm_jobId : nat;
  wm_projectedFinal : number;
  wm_targetWords : number;
  wm_shortfall : number
}.

(** Server-to-client messages. *)
Inductive Msg :=
| MError (message : string)
| MJobStarted (jobId totalChunks inputWords : nat) (target : number)
    (mode : string) (ratio : number)
| MProgress (jobId : nat) (phase : ProgressPhase) (message : string)
    (stats : option ProgressStats)
| MChunkComplete (m : ChunkCompleteMessage)
| MWarning (m : WarningMessage)
| MJobComplete (jobId : nat) (finalOutput : string) (finalWordCount : nat)
    (target : number) (stitchResult : Json) (timeElapsed : Z)
| MJobFailed (jobId : nat) (error : string)
| MJobAborted (jobId completedChunks totalChunks : nat)
    (partialOutput : string) (wordCount : nat)
| MAbortAcknowledged (jobId : nat)
| MJobResumed (jobId : nat) (status : JobStatus) (currentChunk totalChunks : nat)
| MJobAlreadyComplete (jobId : nat) (finalOutput : option string)
    (finalWordCount : option nat)
| MJobStatus (jobId : nat) (status : JobStatus)
    (currentChunk totalChunks completedChunks wordsProcessed : nat)
    (target : number) (isRunning : bool).

(** What leaves the server: [sendToClient] to one socket, [broadcastToJob] to
    the sockets subscribed to a job.  Sockets are taken to be open. *)
Inductive Out :=
| ToClient (ws : nat) (m : Msg)
| ToJob (jobId : nat) (m : Msg).

(** What an observer of the run can see besides the messages: the calls to
    the collaborators, the writes to the chunk table and the warnings on the
    console. *)
Inductive Event :=
| EvExtract (jobId : nat)
| EvReconstruct (jobId chunkIndex : nat)
| EvStitch (jobId : nat)
| EvChunkWrite (chunkId : nat) (st : ChunkStatus)
| EvWarnNullPrior (indices : list nat)
| EvWarnVerify (chunkIndex : nat).

#[global] Instance Event_eq_dec : EqDecision Event.
Proof. solve_decision. Defined.

(** An entry of [activeJobs]. *)
Record JobState := {
  aborted : bool;
  startTime : Z
}.

Record World := {
  documents : list DocRow;              (* reconstruction_documents *)
  chunks : list ChunkRow;               (* reconstruction_chunks *)
  nextDocId : nat;                      (* the two serial sequences *)
  nextChunkId : nat;
  activeJobs : gmap nat JobState;
  clientConnections : gmap nat (option nat);
  outbox : list Out;                    (* oldest first *)
  trace : list Event;                   (* oldest first *)
  now : Z                               (* Date.now() *)
}.

(** The collaborators of [./crossChunkCoherence] and of the store. *)
Record Env := {
  parseTargetLength : option string -> option (option number * option number);
  calculateLengthConfig :
    nat -> option number -> option number -> option string -> LengthConfig;
  smartChunk : string -> list (string * number);
  extractGlobalSkeleton : string -> option string -> option string -> Json;
  reconstructChunkConstrained :
    string -> nat -> nat -> Json -> LengthConfig -> string -> string * ChunkDelta;
  stitchAndValidate : Json -> list (string * ChunkDelta) -> string * Json;
  (** the error thrown by the insert of the job row, if any *)
  documentInsertError : string -> option string;
  (** what the [chunk_delta] column of a chunk holds after a delta is written *)
  persistedDelta : nat -> ChunkDelta -> option ChunkDelta
}.

Definition set_documents (f : list DocRow -> list DocRow) (w : World) : World :=
  {| documents := f (documents w); chunks := chunks w;
     nextDocId := nextDocId w; nextChunkId := nextChunkId w;
     activeJobs := activeJobs w; clientConnections := clientConnections w;
     outbox := outbox w; trace := trace w; now := now w |}.

Definition set_chunks (f : list ChunkRow -> list ChunkRow) (w : World) : World :=
  {| documents := documents w; chunks := f (chunks w);
     nextDocId := nextDocId w; nextChunkId := nextChunkId w;
     activeJobs := activeJobs w; clientConnections := clientConnections w;
     outbox := outbox w; trace := trace w; now := now w |}.

Definition set_activeJobs (f : gmap nat JobState -> gmap nat JobState)
  (w : World) : World :=
  {| documents := documents w; chunks := chunks w;
     nextDocId := nextDocId w; nextChunkId := nextChunkId w;
     activeJobs := f (activeJobs w); clientConnections := clientConnections w;
     outbox := outbox w; trace := trace w; now := now w |}.

Definition set_clientConnections
  (f : gmap nat (option nat) -> gmap nat (option nat)) (w : World) : World :=
  {| documents := documents w; chunks := chunks w;
     nextDocId := nextDocId w; nextChunkId := nextChunkId w;
     activeJobs := activeJobs w; clientConnections := f (clientConnections w);
     outbox := outbox w; trace := trace w; now := now w |}.

Definition emit (o : Out) (w : World) : World :=
  {| documents := documents w; chunks := chunks w;
     nextDocId := nextDocId w; nextChunkId := nextChunkId w;
     activeJobs := activeJobs w; clientConnections := clientConnections w;
     outbox := outbox w ++ [o]; trace := trace w; now := now w |}.

Definition logEvent (e : Event) (w : World) : World :=
  {| documents := documents w; chunks := chunks w;
     nextDocId := nextDocId w; nextChunkId := nextChunkId w;
     activeJobs := activeJobs w; clientConnections := clientConnections w;
     outbox := outbox w; trace := trace w ++ [e]; now := now w |}.

Definition sendToClient (ws : nat) (m : Msg) : World -> World := emit (ToClient ws m).
Definition sendError (ws : nat) (error : string) : World -> World :=
  sendToClient ws (MError error).
Definition broadcastToJob (jobId : nat) (m : Msg) : World -> World :=
  emit (ToJob jobId m).
Definition broadcastProgress (jobId : nat) (phase : ProgressPhase)
  (message : string) (stats : option ProgressStats) : World -> World :=
  broadcastToJob jobId (MProgress jobId phase message stats).

(* ===================================================================== *)
(** ** Queries and updates on the store *)
(* ===================================================================== *)

(** [orderBy(asc(chunkIndex))]: a stable insertion sort on the chunk index. *)
Fixpoint insertByIndex (c : ChunkRow) (l : list ChunkRow) : list ChunkRow :=
  match l with
  | [] => [c]
  | x :: r =>
      if chunkIndex c <=? chunkIndex x then c :: x :: r
      else x :: insertByIndex c r
  end.

Definition orderByIndex (l : list ChunkRow) : list ChunkRow :=
  foldr insertByIndex [] l.

(** [select().from(reconstructionDocuments).where(eq(id, jobId))], first row. *)
Definition selectDocument (jobId : nat) (w : World) : option DocRow :=
  head (filter (λ d, doc_id d = jobId) (documents w)).

(** [select().from(reconstructionChunks).where(eq(id, chunkId))], first row. *)
Definition selectChunk (chunkId : nat) (w : World) : option ChunkRow :=
  head (filter (λ c, chunk_id c = chunkId) (chunks w)).

(** The chunks of a job, in index order. *)
Definition selectChunks (jobId : nat) (w : World) : list ChunkRow :=
  orderByIndex (filter (λ c, documentId c = jobId) (chunks w)).

(** The complete chunks of a job, in index order. *)
Definition selectCompleted (jobId : nat) (w : World) : list ChunkRow :=
  orderByIndex
    (filter (λ c, documentId c = jobId ∧ chunk_status c = CComplete) (chunks w)).

(** The chunks of a job below an index, in index order. *)
Definition selectPrior (jobId upto : nat) (w : World) : list ChunkRow :=
  orderByIndex
    (filter (λ c, documentId c = jobId ∧ chunkIndex c < upto) (chunks w)).

Definition updateRows {A} (key : A -> nat) (k : nat) (f : A -> A)
  (rows : list A) : list A :=
  (λ r, if decide (key r = k) then f r else r) <$> rows.

Definition updateDocument (jobId : nat) (f : DocRow -> DocRow) : World -> World :=
  set_documents (updateRows doc_id jobId f).

(** An update of one chunk row, recorded with the status it writes. *)
Definition updateChunk (chunkId : nat) (st : ChunkStatus)
  (f : ChunkRow -> ChunkRow) (w : World) : World :=
  logEvent (EvChunkWrite chunkId st) (set_chunks (updateRows chunk_id chunkId f) w).

(* ===================================================================== *)
(** ** Coherence helpers: [getPriorDeltas], [buildPriorDeltasSummary] *)
(* ===================================================================== *)

(** [getPriorDeltas(jobId, currentChunkIndex)]: the deltas and the world,
    which gains a console warning when some prior chunk has a null delta. *)
Definition getPriorDeltas (jobId currentChunkIndex : nat) (w : World)
  : list ChunkDelta * World :=
  if decide (currentChunkIndex = 0) then ([], w)
  else
    let priorChunks := selectPrior jobId currentChunkIndex w in
    let nullDeltas := filter (λ c, ¬ is_Some (chunkDelta c)) priorChunks in
    let w1 :=
      if decide (0 < length nullDeltas)
      then logEvent (EvWarnNullPrior (chunkIndex <$> nullDeltas)) w
      else w in
    let validDeltas := omap chunkDelta priorChunks in
    (validDeltas, w1).

(** [arr.slice(-n)] *)
Definition sliceLast {A} (n : nat) (l : list A) : list A :=
  drop (length l - n) l.

(** [Array.from(new Set(arr))]: the first occurrence of each element, in order. *)
Fixpoint uniqueFrom (seen : list string) (l : list string) : list string :=
  match l with
  | [] => []
  | x :: r =>
      if decide (x ∈ seen) then uniqueFrom seen r
      else x :: uniqueFrom (x :: seen) r
  end.

Definition unique (l : list string) : list string := uniqueFrom [] l.

(** [s || d] on strings *)
Definition orElse (s d : string) : string :=
  match s with EmptyString => d | _ => s end.

(** The four arrays the [forEach] of [buildPriorDeltasSummary] fills. *)
Record Accumulated := {
  summaryLines : list string;
  accumulatedClaims : list string;
  accumulatedTerms : list string;
  accumulatedConflicts : list string
}.

Definition accumulateDelta (acc : Accumulated) (entry : nat * ChunkDelta)
  : Accumulated :=
  let '(i, delta) := entry in
  let claims := default [] (newClaimsIntroduced delta) in
  let terms := default [] (termsUsed delta) in
  let conflicts := default [] (conflictsDetected delta) in
  let additions := default [] (ledgerAdditions delta) in
  {| accumulatedClaims := accumulatedClaims acc ++ claims;
     accumulatedTerms := accumulatedTerms acc ++ terms;
     accumulatedConflicts := accumulatedConflicts acc ++ (description <$> conflicts);
     summaryLines :=
       if decide (0 < length claims ∨ 0 < length additions)
       then summaryLines acc ++
            [("Chunk " ++ showNat (i + 1) ++ ": " ++
              orElse (join "; " (take 3 claims)) "no new claims")%string]
       else summaryLines acc |}.

Definition accumulate (priorDeltas : list ChunkDelta) : Accumulated :=
  fold_left accumulateDelta (imap pair priorDeltas)
    {| summaryLines := []; accumulatedClaims := [];
       accumulatedTerms := []; accumulatedConflicts := [] |}.

(** The three lists the summary shows. *)
Definition shownClaims (priorDeltas : list ChunkDelta) : list string :=
  sliceLast 15 (accumulatedClaims (accumulate priorDeltas)).
Definition shownTerms (priorDeltas : list ChunkDelta) : list string :=
  sliceLast 20 (unique (accumulatedTerms (accumulate priorDeltas))).
Definition shownConflicts (priorDeltas : list ChunkDelta) : list string :=
  sliceLast 5 (accumulatedConflicts (accumulate priorDeltas)).

Definition bullet (c : string) : string := ("  - " ++ c)%string.

Definition buildPriorDeltasSummary (priorDeltas : list ChunkDelta) : string :=
  if decide (length priorDeltas = 0)
  then "This is the first chunk. No prior context to maintain."%string
  else
    let acc := accumulate priorDeltas in
    let uniqueTerms := unique (accumulatedTerms acc) in
    let summary :=
      ("=== PRIOR CHUNKS COHERENCE CONTEXT (" ++ showNat (length priorDeltas)
         ++ " chunks) ===" ++ nl)%string in
    let summary :=
      (summary ++ "ACCUMULATED CLAIMS (you MUST NOT contradict these):" ++ nl)%string in
    let summary :=
      (summary ++
       orElse (join nl (bullet <$> sliceLast 15 (accumulatedClaims acc)))
         "  (none yet)")%string in
    let summary :=
      (summary ++ nlnl ++ "TERMS ALREADY USED (use consistently):" ++ nl)%string in
    let summary :=
      (summary ++ orElse (join ", " (sliceLast 20 uniqueTerms)) "(none yet)")%string in
    if decide (0 < length (accumulatedConflicts acc))
    then
      (summary ++ nlnl ++ "PREVIOUS CONFLICTS DETECTED (avoid repeating):" ++ nl
         ++ join nl (bullet <$> sliceLast 5 (accumulatedConflicts acc)))%string
    else summary.

(* ===================================================================== *)
(** ** The job controller *)
(* ===================================================================== *)

Definition dayMs : Z := 24 * 60 * 60 * 1000.

(** [x || undefined] on a nullable text column *)
Definition orUndefined (o : option string) : option string :=
  match o with
  | Some EmptyString => None
  | _ => o
  end.

(** The local variables of [processJobAsync] that live across the loop. *)
Record Locals := {
  l_job : DocRow;             (* the row read on entry *)
  l_startTime : Z;            (* jobState.startTime *)
  l_skeleton : Json;
  l_chunksLength : nat;       (* chunks.length *)
  l_runningWordCount : nat
}.

Definition l_jobId (L : Locals) : nat := doc_id (l_job L).

Definition set_running (n : nat) (L : Locals) : Locals :=
  {| l_job := l_job L; l_startTime := l_startTime L;
     l_skeleton := l_skeleton L; l_chunksLength := l_chunksLength L;
     l_runningWordCount := n |}.

(** The continuation of a worker at the points where it yields. *)
Inductive Worker :=
| WStart (jobId : nat)
| WExtracting (job : DocRow) (startTime : Z)
| WBoundary (L : Locals) (todo : list ChunkRow)
| WInChunk (L : Locals) (chunk : ChunkRow) (rest : list ChunkRow)
| WStitching (L : Locals)
| WDone.

Definition isAborted (jobId : nat) (w : World) : bool :=
  match activeJobs w !! jobId with
  | Some st => aborted st
  | None => false
  end.

(** [handleAbort] *)
Definition handleAbort (jobId : nat) (w : World) : World :=
  let w := updateDocument jobId (doc_setStatus JAborted (now w)) w in
  let completedChunks := selectCompleted jobId w in
  let job := selectDocument jobId w in
  let partialOutput :=
    join nlnl ((λ c, default EmptyString (chunkOutputText c)) <$> completedChunks) in
  let wordCount := countWords partialOutput in
  let w :=
    broadcastToJob jobId
      (MJobAborted jobId (length completedChunks)
         (from_option numChunks 0 job) partialOutput wordCount) w in
  set_activeJobs (delete jobId) w.

(** The [catch] block of [processJobAsync]. *)
Definition handleFailure (jobId : nat) (error : string) (w : World) : World :=
  let w := updateDocument jobId (doc_setFailed error (now w)) w in
  let w := broadcastToJob jobId (MJobFailed jobId error) w in
  set_activeJobs (delete jobId) w.

(** The projected final word count after the chunk of index [k]. *)
Definition projectedFinalWords (running k total : nat) : number :=
  Math_round (mul (div (ofNat running) (ofNat (k + 1))) (ofNat total)).

(** The shortfall, in percent, of a projection against the target. *)
Definition shortfallPercent (target projected : number) : number :=
  mul (div (sub target projected) target) (ofZ 100).

(** The under-production check that follows a [chunk_complete]. *)
Definition lengthWarning (jobId k : nat) (target projected : number)
  : option WarningMessage :=
  if (19 <=? k) && (k mod 10 =? 0) then
    let shortfall := shortfallPercent target projected in
    if gt shortfall (ofZ 25) then
      Some {| wm_jobId := jobId; wm_projectedFinal := projected;
              wm_targetWords := target; wm_shortfall := Math_round shortfall |}
    else None
  else None.

(** From the top of the loop body to the first write: the abort check and
    the move of the chunk to [processing]. *)
Definition enterChunk (L : Locals) (chunk : ChunkRow) (w : World) : option World :=
  if isAborted (l_jobId L) w then None
  else Some (updateChunk (chunk_id chunk) CProcessing chunk_setProcessing w).

(** The rest of the loop body. *)
Definition processChunk (E : Env) (L : Locals) (chunk : ChunkRow) (w : World)
  : Locals * World :=
  let jobId := l_jobId L in
  let job := l_job L in
  let '(priorDeltas, w) := getPriorDeltas jobId (chunkIndex chunk) w in
  let priorDeltasContext := buildPriorDeltasSummary priorDeltas in
  let '(outputText, delta) :=
    reconstructChunkConstrained E (chunkInputText chunk) (chunkIndex chunk)
      (numChunks job) (l_skeleton L) (lengthConfig job) priorDeltasContext in
  let w := logEvent (EvReconstruct jobId (chunkIndex chunk)) w in
  let actualWords := countWords outputText in
  let runningWordCount := l_runningWordCount L + actualWords in
  let isOnTarget :=
    ge (ofNat actualWords) (minWords chunk) && le (ofNat actualWords) (maxWords chunk) in
  let chunkStatus := if isOnTarget then on_target else flagged in
  let w :=
    updateChunk (chunk_id chunk) CComplete
      (chunk_setComplete outputText actualWords
         (persistedDelta E (chunk_id chunk) delta)) w in
  let w :=
    match selectChunk (chunk_id chunk) w ≫= chunkDelta with
    | None => logEvent (EvWarnVerify (chunkIndex chunk)) w
    | Some _ => w
    end in
  let w :=
    updateDocument jobId (doc_setCurrentChunk (chunkIndex chunk + 1) (now w)) w in
  let projectedFinal :=
    projectedFinalWords runningWordCount (chunkIndex chunk) (numChunks job) in
  let w :=
    broadcastToJob jobId
      (MChunkComplete
         {| cc_jobId := jobId; cc_chunkIndex := chunkIndex chunk;
            cc_totalChunks := numChunks job; cc_chunkText := outputText;
            cc_actualWords := actualWords; cc_targetWords := targetWords chunk;
            cc_minWords := minWords chunk; cc_maxWords := maxWords chunk;
            cc_runningTotal := runningWordCount;
            cc_projectedFinal := projectedFinal; cc_status := chunkStatus |}) w in
  let w :=
    match lengthWarning jobId (chunkIndex chunk)
            (targetMid (lengthConfig job)) projectedFinal with
    | Some warning => broadcastToJob jobId (MWarning warning) w
    | None => w
    end in
  let elapsed := (now w - l_startTime L)%Z in
  let avgTimePerChunk := div (ofZ elapsed) (ofNat (chunkIndex chunk + 1)) in
  let remaining :=
    mul avgTimePerChunk
      (sub (sub (ofNat (numChunks job)) (ofNat (chunkIndex chunk))) (ofZ 1)) in
  let w :=
    broadcastProgress jobId PhChunkProcessing
      ("Processing chunk " ++ showNat (chunkIndex chunk + 2) ++ " of "
         ++ showNat (numChunks job) ++ "...")%string
      (Some {| ps_completedChunks := chunkIndex chunk + 1;
               ps_totalChunks := numChunks job;
               ps_wordsProcessed := runningWordCount;
               ps_targetWords := targetMid (lengthConfig job);
               ps_projectedFinal := projectedFinal;
               ps_timeElapsed := elapsed;
               ps_estimatedRemaining := remaining |}) w in
  (set_running runningWordCount L, w).

(** After the loop, up to the write of the [stitching] status. *)
Definition beginStitching (L : Locals) (w : World) : World :=
  let jobId := l_jobId L in
  let w :=
    broadcastProgress jobId PhStitching "Running global consistency check..." None w in
  updateDocument jobId (doc_setStatus JStitching (now w)) w.

(** The stitch pass and the completion of the job. *)
Definition finishJob (E : Env) (L : Locals) (w : World) : World :=
  let jobId := l_jobId L in
  let completedChunks := selectCompleted jobId w in
  let chunksForStitch :=
    (λ c, (default EmptyString (chunkOutputText c),
           default emptyDelta (chunkDelta c))) <$> completedChunks in
  let '(finalOutput, stitchResult) :=
    stitchAndValidate E (l_skeleton L) chunksForStitch in
  let w := logEvent (EvStitch jobId) w in
  let finalWordCount := countWords finalOutput in
  let w :=
    updateDocument jobId
      (doc_setFinal finalOutput finalWordCount stitchResult (now w)) w in
  let w :=
    broadcastToJob jobId
      (MJobComplete jobId finalOutput finalWordCount
         (targetMid (lengthConfig (l_job L))) stitchResult
         (now w - l_startTime L)%Z) w in
  set_activeJobs (delete jobId) w.

(** [processJobAsync], from its entry to the call of the skeleton extractor. *)
Definition beginJob (jobId : nat) (w : World) : Worker * World :=
  match selectDocument jobId w with
  | None =>
      (WDone, handleFailure jobId ("Job " ++ showNat jobId ++ " not found")%string w)
  | Some job =>
      match activeJobs w !! jobId with
      | None => (WDone, w)
      | Some jobState =>
          let w :=
            broadcastProgress jobId PhSkeletonExtraction
              "Extracting document structure..." None w in
          let w := updateDocument jobId (doc_setStatus JSkeletonExtraction (now w)) w in
          (WExtracting job (startTime jobState), w)
      end
  end.

(** From the answer of the skeleton extractor to the top of the loop. *)
Definition afterSkeleton (E : Env) (job : DocRow) (start : Z) (w : World)
  : Worker * World :=
  let jobId := doc_id job in
  let skeleton :=
    extractGlobalSkeleton E (originalText job)
      (orUndefined (audienceParameters job)) (orUndefined (rigorLevel job)) in
  let w := logEvent (EvExtract jobId) w in
  let w := updateDocument jobId (doc_setSkeleton skeleton (now w)) w in
  if isAborted jobId w then (WDone, handleAbort jobId w)
  else
    let w := broadcastProgress jobId PhChunkProcessing "Processing chunks..." None w in
    let chunks := selectChunks jobId w in
    (WBoundary {| l_job := job; l_startTime := start; l_skeleton := skeleton;
                  l_chunksLength := length chunks; l_runningWordCount := 0 |}
       chunks, w).

(** One turn of a worker: from one suspension point to the next. *)
Definition worker_step (E : Env) (wk : Worker) (w : World) : Worker * World :=
  match wk with
  | WStart jobId => beginJob jobId w
  | WExtracting job start => afterSkeleton E job start w
  | WBoundary L [] => (WStitching L, beginStitching L w)
  | WBoundary L (chunk :: rest) =>
      match enterChunk L chunk w with
      | None => (WDone, handleAbort (l_jobId L) w)
      | Some w' => (WInChunk L chunk rest, w')
      end
  | WInChunk L chunk rest =>
      let '(L', w') := processChunk E L chunk w in (WBoundary L' rest, w')
  | WStitching L => (WDone, finishJob E L w)
  | WDone => (WDone, w)
  end.

(** [n] turns of a worker that nothing interleaves with. *)
Fixpoint run_worker (E : Env) (n : nat) (wk : Worker) (w : World) : Worker * World :=
  match n with
  | O => (wk, w)
  | S n' => let '(wk', w') := worker_step E wk w in run_worker E n' wk' w'
  end.

(** The [for] loop of [processJobAsync] and what follows it, run without
    interleaving. *)
Fixpoint chunkLoop (E : Env) (L : Locals) (todo : list ChunkRow) (w : World) : World :=
  match todo with
  | [] => finishJob E L (beginStitching L w)
  | chunk :: rest =>
      match enterChunk L chunk w with
      | None => handleAbort (l_jobId L) w
      | Some w1 =>
          let '(L', w2) := processChunk E L chunk w1 in chunkLoop E L' rest w2
      end
  end.

(** [processJobAsync] run to its end without interleaving. *)
Definition processJobAsync (E : Env) (jobId : nat) (w : World) : World :=
  match beginJob jobId w with
  | (WExtracting job start, w1) =>
      match afterSkeleton E job start w1 with
      | (WBoundary L todo, w2) => chunkLoop E L todo w2
      | (_, w2) => w2
      end
  | (_, w1) => w1
  end.

(** The row of chunk [i] that [startStreamingJob] inserts. *)
Definition newChunkRow (jobId i id : nat) (lc : LengthConfig)
  (chunk : string * number) : ChunkRow :=
  let chunkInputWords := chunk.2 in
  let chunkTarget := Math_round (mul chunkInputWords (lengthRatio lc)) in
  {| chunk_id := id; documentId := jobId; chunkIndex := i;
     chunkInputText := chunk.1; chunkInputWords := chunkInputWords;
     targetWords := chunkTarget;
     minWords := Math_floor (mul chunkTarget lit_0_85);
     maxWords := Math_ceil (mul chunkTarget lit_1_15);
     chunkOutputText := None; actualWords := None; chunkDelta := None;
     chunk_status := CPending |}.

Definition insertChunk (mk : nat -> ChunkRow) (w : World) : World :=
  {| documents := documents w; chunks := chunks w ++ [mk (nextChunkId w)];
     nextDocId := nextDocId w; nextChunkId := S (nextChunkId w);
     activeJobs := activeJobs w; clientConnections := clientConnections w;
     outbox := outbox w; trace := trace w; now := now w |}.

(** [for (let i = 0; i < chunks.length; i++)], from [i] on. *)
Fixpoint insertChunks (jobId : nat) (lc : LengthConfig) (i : nat)
  (cs : list (string * number)) (w : World) : World :=
  match cs with
  | [] => w
  | c :: r =>
      insertChunks jobId lc (S i) r
        (insertChunk (λ id, newChunkRow jobId i id lc c) w)
  end.

(** The insert of the job row: the error it throws, or the row it returns. *)
Definition insertDocument (E : Env) (text : string) (wc : nat)
  (lc : LengthConfig) (n : nat) (audience rigor instructions : option string)
  (w : World) : string + DocRow * World :=
  match documentInsertError E text with
  | Some err => inl err
  | None =>
      let job :=
        {| doc_id := nextDocId w; originalText := text; wordCount := wc;
           doc_status := JPending; lengthConfig := lc; numChunks := n;
           currentChunk := 0; audienceParameters := audience;
           rigorLevel := rigor; customInstructions := instructions;
           globalSkeleton := None; finalOutput := None; finalWordCount := None;
           validationResult := None; errorMessage := None; updatedAt := now w |} in
      inr (job,
           {| documents := documents w ++ [job]; chunks := chunks w;
              nextDocId := S (nextDocId w); nextChunkId := nextChunkId w;
              activeJobs := activeJobs w; clientConnections := clientConnections w;
              outbox := outbox w; trace := trace w; now := now w |})
  end.

(** [startStreamingJob]: the world, and the worker it starts if any. *)
Definition startStreamingJob (E : Env) (ws : nat) (text : string)
  (customInstructions audienceParameters rigorLevel : option string) (w : World)
  : World * option Worker :=
  let wordCount := countWords text in
  if (50000 <? Z.of_nat wordCount)%Z then
    (sendError ws ("Input exceeds maximum of 50,000 words (got "
                     ++ showNat wordCount ++ ")")%string w, None)
  else if (Z.of_nat wordCount <=? 500)%Z then
    (sendError ws ("Document too short for CC processing (" ++ showNat wordCount
                     ++ " words). Use standard reconstruction.")%string w, None)
  else
    let parsedLength := parseTargetLength E customInstructions in
    let lengthConfig :=
      calculateLengthConfig E wordCount
        (parsedLength ≫= fst) (parsedLength ≫= snd) customInstructions in
    let chunks := smartChunk E text in
    match insertDocument E text wordCount lengthConfig (length chunks)
            audienceParameters rigorLevel customInstructions w with
    | inl err => (sendError ws ("Database error: " ++ err)%string w, None)
    | inr (job, w) =>
        let w := insertChunks (doc_id job) lengthConfig 0 chunks w in
        let w := set_clientConnections <[ws := Some (doc_id job)]> w in
        let w :=
          set_activeJobs <[doc_id job := {| aborted := false; startTime := now w |}]> w in
        let w :=
          sendToClient ws
            (MJobStarted (doc_id job) (length chunks) wordCount
               (targetMid lengthConfig) (lengthMode lengthConfig)
               (lengthRatio lengthConfig)) w in
        (w, Some (WStart (doc_id job)))
    end.

(** [abortJob] *)
Definition abortJob (ws jobId : nat) (w : World) : World :=
  match activeJobs w !! jobId with
  | Some jobState =>
      sendToClient ws (MAbortAcknowledged jobId)
        (set_activeJobs
           <[jobId := {| aborted := true; startTime := startTime jobState |}]> w)
  | None =>
      sendError ws ("Job " ++ showNat jobId ++ " is not currently running")%string w
  end.

(** [resumeJob]: the world, and the worker it starts if any. *)
Definition resumeJob (ws jobId : nat) (w : World) : World * option Worker :=
  match selectDocument jobId w with
  | None => (sendError ws ("Job " ++ showNat jobId ++ " not found")%string w, None)
  | Some job =>
      if decide (doc_status job = JComplete) then
        (sendToClient ws
           (MJobAlreadyComplete jobId (finalOutput job) (finalWordCount job)) w, None)
      else if decide (is_Some (activeJobs w !! jobId)) then
        (sendError ws ("Job " ++ showNat jobId ++ " is already running")%string w, None)
      else
        let w := set_clientConnections <[ws := Some jobId]> w in
        let w :=
          set_activeJobs <[jobId := {| aborted := false; startTime := now w |}]> w in
        let w :=
          sendToClient ws
            (MJobResumed jobId (doc_status job) (currentChunk job) (numChunks job)) w in
        (w, Some (WStart jobId))
  end.

(** [getJobStatus] *)
Definition getJobStatus (ws jobId : nat) (w : World) : World :=
  match selectDocument jobId w with
  | None => sendError ws ("Job " ++ showNat jobId ++ " not found")%string w
  | Some job =>
      let chunks := selectChunks jobId w in
      let completedCount := length (filter (λ c, chunk_status c = CComplete) chunks) in
      let totalWords := foldl (λ sum c, sum + default 0 (actualWords c)) 0 chunks in
      sendToClient ws
        (MJobStatus jobId (doc_status job) (currentChunk job) (numChunks job)
           completedCount totalWords (targetMid (lengthConfig job))
           (bool_decide (is_Some (activeJobs w !! jobId)))) w
  end.

Inductive ClientMessageType := start_job | abort_job | resume_job | get_status.

Record ClientMessage := {
  cm_type : ClientMessageType;
  cm_jobId : option nat;
  cm_text : option string;
  cm_customInstructions : option string;
  cm_audienceParameters : option string;
  cm_rigorLevel : option string
}.

(** [handleClientMessage]; [!message.text] holds of a missing or empty text,
    [!message.jobId] of a missing or zero id. *)
Definition handleClientMessage (E : Env) (ws : nat) (message : ClientMessage)
  (w : World) : World * option Worker :=
  match cm_type message with
  | start_job =>
      match cm_text message with
      | None | Some EmptyString =>
          (sendError ws "Text is required to start a job" w, None)
      | Some text =>
          startStreamingJob E ws text (cm_customInstructions message)
            (cm_audienceParameters message) (cm_rigorLevel message) w
      end
  | abort_job =>
      match cm_jobId message with
      | None | Some O => (sendError ws "Job ID is required to abort" w, None)
      | Some jobId => (abortJob ws jobId w, None)
      end
  | resume_job =>
      match cm_jobId message with
      | None | Some O => (sendError ws "Job ID is required to resume" w, None)
      | Some jobId => resumeJob ws jobId w
      end
  | get_status =>
      match cm_jobId message with
      | None | Some O => (w, None)
      | Some jobId => (getJobStatus ws jobId w, None)
      end
  end.

(** The two [delete] statements of the sweep. *)
Definition deleteJob (jobId : nat) (w : World) : World :=
  set_documents (filter (λ d, doc_id d ≠ jobId))
    (set_chunks (filter (λ c, documentId c ≠ jobId)) w).

(** The body of the loop of [cleanupOldJobs]. *)
Definition cleanupJob (cutoff : Z) (acc : nat * World) (jobId : nat) : nat * World :=
  let '(deletedCount, w) := acc in
  match selectDocument jobId w with
  | Some jobData =>
      if (updatedAt jobData <? cutoff)%Z then (S deletedCount, deleteJob jobId w)
      else acc
  | None => acc
  end.

(** [cleanupOldJobs]: the number of jobs deleted, and the world. *)
Definition cleanupOldJobs (w : World) : nat * World :=
  let cutoff := (now w - dayMs)%Z in
  let oldJobs := doc_id <$> filter (λ d, doc_status d = JComplete) (documents w) in
  fold_left (cleanupJob cutoff) oldJobs (0, w).

(** The server process dies and is started again: the store survives, the
    two in-memory maps do not. *)
Definition restartProcess (w : World) : World :=
  set_clientConnections (λ _, ∅) (set_activeJobs (λ _, ∅) w).

(* ===================================================================== *)
(** ** The audit service *)
(* ===================================================================== *)

Module Audit.

Local Open Scope Z_scope.

(** The payload of an audit event, by the operation that builds it. *)
Inductive EventData :=
| LlmCallData (model provider : string) (inputTokens outputTokens latencyMs : option Z)
    (status : option string)
| ChunkProcessingData (chunkIndex inputWordCount outputWordCount targetWordCount : Z)
    (passed : bool) (failureReason : option string)
| LengthEnforcementData (targetWords : Z) (finalWords : option Z)
    (targetMet : option bool) (iterationsRequired : option Z)
| JobCreatedData (jobTitle : option string) (status : string)
    (inputWordCount : option Z)
| JobStatusUpdateData (status : string) (outputWordCount : option Z)
    (targetMet : option bool)
| OtherData (json : Json).

(** [InsertAuditEvent] *)
Record InsertAuditEvent := {
  ae_userId : option Z;
  ae_jobId : option Z;
  ae_jobType : option string;
  ae_eventType : string;
  ae_eventData : EventData
}.

(** The parameter objects of the four other operations. *)
Record LlmCallParams := {
  lc_userId : option Z; lc_jobId : option Z; lc_jobType : option string;
  lc_modelName : string; lc_provider : string;
  lc_promptSummary : option string; lc_promptFull : option string;
  lc_responseSummary : option string; lc_responseFull : option string;
  lc_inputTokens : option Z; lc_outputTokens : option Z;
  lc_latencyMs : option Z; lc_status : option string;
  lc_errorMessage : option string
}.

Record ChunkProcessingParams := {
  cp_userId : option Z; cp_jobId : option Z; cp_jobType : option string;
  cp_chunkIndex : Z; cp_inputWordCount : Z; cp_outputWordCount : Z;
  cp_targetWordCount : Z; cp_minWordCount : option Z; cp_maxWordCount : option Z;
  cp_passed : bool; cp_failureReason : option string;
  cp_retryNumber : option Z; cp_llmCallId : option Z
}.

Record LengthEnforcementParams := {
  le_userId : option Z; le_jobId : Z; le_jobType : string;
  le_targetWords : Z; le_finalWords : option Z; le_targetMet : option bool;
  le_iterationsRequired : option Z; le_failureReason : option string
}.

Record JobHistoryParams := {
  jh_userId : Z; jh_jobId : Z; jh_jobType : string;
  jh_jobTitle : option string; jh_inputSummary : option string;
  jh_outputSummary : option string; jh_inputWordCount : option Z;
  jh_outputWordCount : option Z; jh_targetWordCount : option Z;
  jh_targetMet : option bool; jh_status : string
}.

(** The values inserted in [llm_calls] and [chunk_processing_logs]: the
    parameters, and the columns the operation computes. *)
Record LlmCallRow := {
  lr_params : LlmCallParams;
  lr_auditEventId : option Z;
  lr_status : string
}.

Record ChunkProcessingRow := {
  cr_params : ChunkProcessingParams;
  cr_retryNumber : Z
}.

(** The five tables, the insert failures to come (one entry per insert,
    [Some e] when it throws [e]; none once the list is used up), and the
    number of inserts that have thrown. *)
Record Db := {
  auditEvents : list InsertAuditEvent;
  llmCalls : list LlmCallRow;
  chunkProcessingLogs : list ChunkProcessingRow;
  lengthEnforcementLogs : list LengthEnforcementParams;
  jobHistory : list JobHistoryParams;
  faults : list (option string);
  failed : nat
}.

(** A computation on the database that returns or throws. *)
Inductive Result (A : Type) :=
| Ok (a : A)
| Throw (e : string).
Arguments Ok {A} a.
Arguments Throw {A} e.

Definition M (A : Type) : Type := Db -> Result A * Db.

Definition ret {A} (a : A) : M A := λ db, (Ok a, db).

Definition bind {A B} (m : M A) (k : A -> M B) : M B :=
  λ db, match m db with
        | (Ok a, db') => k a db'
        | (Throw e, db') => (Throw e, db')
        end.

(** [try { m } catch (error) { h error }] *)
Definition try_catch {A} (m : M A) (h : string -> M A) : M A :=
  λ db, match m db with
        | (Ok a, db') => (Ok a, db')
        | (Throw e, db') => h e db'
        end.

Notation "x <- m ;; k" := (bind m (λ x, k))
  (at level 100, m at next level, right associativity).

(** [db.insert(table).values(row).returning({ id })]: the failure due next
    decides; on success the row is appended and its serial id returned. *)
Definition insert {R} (table : Db -> list R) (store : list R -> Db -> Db)
  (row : R) : M Z :=
  λ db,
    let rest := tail (faults db) in
    match head (faults db) with
    | Some (Some e) =>
        (Throw e,
         {| auditEvents := auditEvents db; llmCalls := llmCalls db;
            chunkProcessingLogs := chunkProcessingLogs db;
            lengthEnforcementLogs := lengthEnforcementLogs db;
            jobHistory := jobHistory db; faults := rest;
            failed := S (failed db) |})
    | _ =>
        let db' :=
          {| auditEvents := auditEvents db; llmCalls := llmCalls db;
             chunkProcessingLogs := chunkProcessingLogs db;
             lengthEnforcementLogs := lengthEnforcementLogs db;
             jobHistory := jobHistory db; faults := rest;
             failed := failed db |} in
        (Ok (Z.of_nat (S (length (table db)))), store (table db ++ [row]) db')
    end.

Definition store_auditEvents (l : list InsertAuditEvent) (db : Db) : Db :=
  {| auditEvents := l; llmCalls := llmCalls db;
     chunkProcessingLogs := chunkProcessingLogs db;
     lengthEnforcementLogs := lengthEnforcementLogs db;
     jobHistory := jobHistory db; faults := faults db; failed := failed db |}.

Definition store_llmCalls (l : list LlmCallRow) (db : Db) : Db :=
  {| auditEvents := auditEvents db; llmCalls := l;
     chunkProcessingLogs := chunkProcessingLogs db;
     lengthEnforcementLogs := lengthEnforcementLogs db;
     jobHistory := jobHistory db; faults := faults db; failed := failed db |}.

Definition store_chunkProcessingLogs (l : list ChunkProcessingRow) (db : Db) : Db :=
  {| auditEvents := auditEvents db; llmCalls := llmCalls db;
     chunkProcessingLogs := l;
     lengthEnforcementLogs := lengthEnforcementLogs db;
     jobHistory := jobHistory db; faults := faults db; failed := failed db |}.

Definition store_lengthEnforcementLogs (l : list LengthEnforcementParams)
  (db : Db) : Db :=
  {| auditEvents := auditEvents db; llmCalls := llmCalls db;
     chunkProcessingLogs := chunkProcessingLogs db;
     lengthEnforcementLogs := l;
     jobHistory := jobHistory db; faults := faults db; failed := failed db |}.

Definition store_jobHistory (l : list JobHistoryParams) (db : Db) : Db :=
  {| auditEvents := auditEvents db; llmCalls := llmCalls db;
     chunkProcessingLogs := chunkProcessingLogs db;
     lengthEnforcementLogs := lengthEnforcementLogs db;
     jobHistory := l; faults := faults db; failed := failed db |}.

Definition logAuditEvent (event : InsertAuditEvent) : M Z :=
  try_catch
    (id <- insert auditEvents store_auditEvents event ;; ret id)
    (λ _, ret (-1)).

Definition logLLMCall (params : LlmCallParams) : M Z :=
  try_catch
    (auditEventId <-
       logAuditEvent
         {| ae_userId := lc_userId params; ae_jobId := lc_jobId params;
            ae_jobType := lc_jobType params; ae_eventType := "llm_call";
            ae_eventData :=
              LlmCallData (lc_modelName params) (lc_provider params)
                (lc_inputTokens params) (lc_outputTokens params)
                (lc_latencyMs params) (lc_status params) |} ;;
     id <-
       insert llmCalls store_llmCalls
         {| lr_params := params;
            lr_auditEventId :=
              if 0 <? auditEventId then Some auditEventId else None;
            lr_status :=
              match lc_status params with
              | None | Some EmptyString => "success"%string
              | Some s => s
              end |} ;;
     ret id)
    (λ _, ret (-1)).

Definition logChunkProcessing (params : ChunkProcessingParams) : M Z :=
  try_catch
    (_ <-
       logAuditEvent
         {| ae_userId := cp_userId params; ae_jobId := cp_jobId params;
            ae_jobType := cp_jobType params; ae_eventType := "chunk_processing";
            ae_eventData :=
              ChunkProcessingData (cp_chunkIndex params)
                (cp_inputWordCount params) (cp_outputWordCount params)
                (cp_targetWordCount params) (cp_passed params)
                (cp_failureReason params) |} ;;
     id <-
       insert chunkProcessingLogs store_chunkProcessingLogs
         {| cr_params := params;
            cr_retryNumber := default 0 (cp_retryNumber params) |} ;;
     ret id)
    (λ _, ret (-1)).

Definition logLengthEnforcement (params : LengthEnforcementParams) : M Z :=
  try_catch
    (_ <-
       logAuditEvent
         {| ae_userId := le_userId params; ae_jobId := Some (le_jobId params);
            ae_jobType := Some (le_jobType params);
            ae_eventType := "length_enforcement";
            ae_eventData :=
              LengthEnforcementData (le_targetWords params)
                (le_finalWords params) (le_targetMet params)
                (le_iterationsRequired params) |} ;;
     id <- insert lengthEnforcementLogs store_lengthEnforcementLogs params ;;
     ret id)
    (λ _, ret (-1)).

Definition createJobHistoryEntry (params : JobHistoryParams) : M Z :=
  try_catch
    (_ <-
       logAuditEvent
         {| ae_userId := Some (jh_userId params); ae_jobId := Some (jh_jobId params);
            ae_jobType := Some (jh_jobType params);
            ae_eventType := "job_created";
            ae_eventData :=
              JobCreatedData (jh_jobTitle params) (jh_status params)
                (jh_inputWordCount params) |} ;;
     id <- insert jobHistory store_jobHistory params ;;
     ret id)
    (λ _, ret (-1)).

(** The parameter object of [updateJobHistoryStatus]. *)
Record JobStatusUpdateParams := {
  ju_jobId : Z; ju_jobType : string; ju_status : string;
  ju_outputSummary : option string; ju_outputWordCount : option Z;
  ju_targetMet : option bool
}.

Definition updateJobHistoryStatus (params : JobStatusUpdateParams) : M unit :=
  try_catch
    (_ <-
       logAuditEvent
         {| ae_userId := None; ae_jobId := Some (ju_jobId params);
            ae_jobType := Some (ju_jobType params);
            ae_eventType := "job_status_update";
            ae_eventData :=
              JobStatusUpdateData (ju_status params) (ju_outputWordCount params)
                (ju_targetMet params) |} ;;
     ret tt)
    (λ _, ret tt).

(** [summarizeText(text, maxLength = 200)], for a [maxLength] that is a
    natural number. *)
Definition summarizeText (text : string) (maxLength : option nat) : string :=
  let maxLength := default 200%nat maxLength in
  if (String.length text <=? maxLength)%nat then text
  else (substring 0 maxLength text ++ "...")%string.

(** The insert number [n] to come (counting from 0) throws. *)
Definition throwsAt (n : nat) (db : Db) : Prop :=
  is_Some (mjoin (faults db !! n)).

(** Some insert threw between two states of the database. *)
Definition failureBetween (db db' : Db) : Prop := (failed db < failed db')%nat.

End Audit.

(* ===================================================================== *)
(** ** A recorded stub of the collaborators, and sample worlds *)
(* ===================================================================== *)

Module Stub.

Local Open Scope string_scope.

(** The delta the stub reports for the chunk of index [i]. *)
Definition delta (i : nat) : ChunkDelta :=
  {| newClaimsIntroduced := Some ["claim " ++ showNat i];
     termsUsed := Some ["term"; "t" ++ showNat i];
     conflictsDetected := None; ledgerAdditions := None |}.

(** A stub that cuts every text in [n] chunks of ten words, keeps the
    length ([lengthRatio] 1, so a target of ten words per chunk), and
    answers every chunk with [produced] words.  [keepsDelta] tells whether
    the store holds on to the deltas written. *)
Definition env (n produced : nat) (keepsDelta : bool) : Env :=
  {| parseTargetLength := λ _, None;
     calculateLengthConfig := λ wc _ _ _,
       {| targetMin := ofNat (10 * n); targetMax := ofNat (10 * n);
          targetMid := ofNat (10 * n); lengthRatio := ofZ 1;
          lengthMode := "preserve"; chunkTargetWords := ofZ 10 |};
     smartChunk := λ _, (λ i, ("input " ++ showNat i, ofZ 10)) <$> seq 0 n;
     extractGlobalSkeleton := λ _ _ _, "{}";
     reconstructChunkConstrained := λ text i _ _ _ _, (words produced, delta i);
     stitchAndValidate := λ _ cs, (join nlnl (fst <$> cs), "ok");
     documentInsertError := λ _, None;
     persistedDelta := λ _ d, if keepsDelta then Some d else None |}.

(** A freshly started server with an empty store. *)
Definition emptyWorld : World :=
  {| documents := []; chunks := []; nextDocId := 1; nextChunkId := 1;
     activeJobs := ∅; clientConnections := ∅; outbox := []; trace := [];
     now := 0 |}.

(** The socket 7 sends [start_job] with a text of 501 words. *)
Definition started (E : Env) : World :=
  (startStreamingJob E 7 (words 501) None None None emptyWorld).1.

(** Time passes. *)
Definition at_time (t : Z) (w : World) : World :=
  {| documents := documents w; chunks := chunks w;
     nextDocId := nextDocId w; nextChunkId := nextChunkId w;
     activeJobs := activeJobs w; clientConnections := clientConnections w;
     outbox := outbox w; trace := trace w; now := t |}.

(** The chunk indices of the [chunk_complete] messages of an outbox, and
    for each [warning] the index of the chunk completed just before. *)
Fixpoint completions (o : list Out) : list nat :=
  match o with
  | ToJob _ (MChunkComplete m) :: r => cc_chunkIndex m :: completions r
  | _ :: r => completions r
  | [] => []
  end.

Fixpoint warningsAfter (last : nat) (o : list Out) : list nat :=
  match o with
  | ToJob _ (MChunkComplete m) :: r => warningsAfter (cc_chunkIndex m) r
  | ToJob _ (MWarning _) :: r => last :: warningsAfter last r
  | _ :: r => warningsAfter last r
  | [] => []
  end.

End Stub.

Module AuditSample.

Import Audit.
Local Open Scope string_scope.

Definition llmCall : LlmCallParams :=
  {| lc_userId := Some 3%Z; lc_jobId := Some 1%Z;
     lc_jobType := Some "reconstruction";
     lc_modelName := "model"; lc_provider := "provider";
     lc_promptSummary := None; lc_promptFull := None;
     lc_responseSummary := None; lc_responseFull := None;
     lc_inputTokens := Some 100%Z; lc_outputTokens := Some 200%Z;
     lc_latencyMs := Some 1500%Z; lc_status := None;
     lc_errorMessage := None |}.

(** An empty audit database whose coming inserts fail as [fs] tells. *)
Definition db (fs : list (option string)) : Db :=
  {| auditEvents := []; llmCalls := []; chunkProcessingLogs := [];
     lengthEnforcementLogs := []; jobHistory := []; faults := fs; failed := 0 |}.

(** The insert into [audit_events] fails, the next insert succeeds. *)
Definition auditTableDown : Db := db [Some "relation audit_events is locked"; None].

End AuditSample.

(* ===================================================================== *)
(** ** Vocabulary of the properties *)
(* ===================================================================== *)

(** The input limits: 501 to 50,000 words. *)
Definition acceptedWordCount (text : string) : Prop :=
  (501 <= Z.of_nat (countWords text) <= 50000)%Z.

(** A job row for [text] has been added to the store. *)
Definition jobCreated (text : string) (w w' : World) : Prop :=
  ∃ job, documents w' = documents w ++ [job]
         ∧ originalText job = text ∧ doc_status job = JPending.

(** Nothing but the outbox differs, which gained one [error] for [ws]. *)
Definition rejected (ws : nat) (w w' : World) : Prop :=
  ∃ message,
    outbox w' = outbox w ++ [ToClient ws (MError message)]
    ∧ documents w' = documents w ∧ chunks w' = chunks w
    ∧ activeJobs w' = activeJobs w
    ∧ clientConnections w' = clientConnections w.

(** The length band of a chunk row. *)
Definition lengthBand (c : ChunkRow) : Prop :=
  minWords c = Math_floor (mul (targetWords c) lit_0_85)
  ∧ maxWords c = Math_ceil (mul (targetWords c) lit_1_15).

(** Equality of two numbers as [===] sees it. *)
Definition number_eqb (x y : number) : bool :=
  match SFcompare x y with
  | Some Eq => true
  | _ => false
  end.

(** The band computed in binary64 for the whole target [t] is the band of
    exact arithmetic: the floor of 85 t / 100 and the ceiling of 115 t / 100. *)
Definition bandIsExact (t : Z) : bool :=
  number_eqb (Math_floor (mul (ofZ t) lit_0_85)) (ofZ (85 * t / 100))
  && number_eqb (Math_ceil (mul (ofZ t) lit_1_15)) (ofZ (- (- (115 * t) / 100))).

Fixpoint allUpTo (n : nat) (f : Z -> bool) : bool :=
  match n with
  | O => f 0%Z
  | S k => f (Z.of_nat n) && allUpTo k f
  end.

(** Ascending chunk index. *)
Definition indexLe (a b : ChunkRow) : Prop := chunkIndex a ≤ chunkIndex b.

(** The text of the summary, from the three lists it shows. *)
Definition renderSummary (n : nat) (claims terms conflicts : list string) : string :=
  ("=== PRIOR CHUNKS COHERENCE CONTEXT (" ++ showNat n ++ " chunks) ===" ++ nl
   ++ "ACCUMULATED CLAIMS (you MUST NOT contradict these):" ++ nl
   ++ orElse (join nl (bullet <$> claims)) "  (none yet)"
   ++ nlnl ++ "TERMS ALREADY USED (use consistently):" ++ nl
   ++ orElse (join ", " terms) "(none yet)"
   ++ match conflicts with
      | [] => ""
      | _ => nlnl ++ "PREVIOUS CONFLICTS DETECTED (avoid repeating):" ++ nl
             ++ join nl (bullet <$> conflicts)
      end)%string.

(** A job the sweep is to delete: complete, and last updated before the
    cutoff of 24 hours before [t]. *)
Definition expiredAt (t : Z) (d : DocRow) : Prop :=
  doc_status d = JComplete ∧ (updatedAt d < t - dayMs)%Z.

(** The row read back for an id is older than the cutoff. *)
Definition oldId (cutoff : Z) (docs : list DocRow) (i : nat) : bool :=
  match head (filter (λ d, doc_id d = i) docs) with
  | Some d => (updatedAt d <? cutoff)%Z
  | None => false
  end.

Module CleanupSample.

Definition lc : LengthConfig :=
  {| targetMin := ofZ 600; targetMax := ofZ 600; targetMid := ofZ 600;
     lengthRatio := ofZ 1; lengthMode := "preserve"; chunkTargetWords := ofZ 600 |}.

(** A job that reached [st] at time 0. *)
Definition job (id : nat) (st : JobStatus) : DocRow :=
  {| doc_id := id; originalText := words 600; wordCount := 600;
     doc_status := st; lengthConfig := lc; numChunks := 1; currentChunk := 0;
     audienceParameters := None; rigorLevel := None; customInstructions := None;
     globalSkeleton := None; finalOutput := None; finalWordCount := None;
     validationResult := None; errorMessage := None; updatedAt := 0 |}.

(** Two days later: a complete job and an aborted job, both untouched since. *)
Definition twoDaysLater : World :=
  {| documents := [job 1 JComplete; job 2 JAborted]; chunks := [];
     nextDocId := 3; nextChunkId := 1; activeJobs := ∅;
     clientConnections := ∅; outbox := []; trace := [];
     now := 2 * dayMs |}.

End CleanupSample.

(** The writes to the chunk table recorded in a trace. *)
Fixpoint chunkWrites (t : list Event) : list (nat * ChunkStatus) :=
  match t with
  | EvChunkWrite id st :: r => (id, st) :: chunkWrites r
  | _ :: r => chunkWrites r
  | [] => []
  end.

(** The calls to the collaborators recorded in a trace. *)
Fixpoint collaboratorCalls (t : list Event) : list Event :=
  match t with
  | EvChunkWrite _ _ :: r | EvWarnNullPrior _ :: r | EvWarnVerify _ :: r =>
      collaboratorCalls r
  | e :: r => e :: collaboratorCalls r
  | [] => []
  end.

(** [getPriorDeltas] on the chunk table alone. *)
Definition tableDeltas (jobId upto : nat) (T : list ChunkRow) : list ChunkDelta :=
  if decide (upto = 0) then []
  else omap chunkDelta
         (orderByIndex (filter (λ c, documentId c = jobId ∧ chunkIndex c < upto) T)).

(** What the reconstructor answers for a chunk, given the chunk table. *)
Definition reconstructed (E : Env) (job : DocRow) (skeleton : string)
  (chunk : ChunkRow) (T : list ChunkRow) : string * ChunkDelta :=
  reconstructChunkConstrained E (chunkInputText chunk) (chunkIndex chunk)
    (numChunks job) skeleton (lengthConfig job)
    (buildPriorDeltasSummary (tableDeltas (doc_id job) (chunkIndex chunk) T)).

(** The chunk table after the two writes of a turn of the loop. *)
Definition processedTable (E : Env) (job : DocRow) (skeleton : string)
  (chunk : ChunkRow) (T : list ChunkRow) : list ChunkRow :=
  let T1 := updateRows chunk_id (chunk_id chunk) chunk_setProcessing T in
  let r := reconstructed E job skeleton chunk T1 in
  updateRows chunk_id (chunk_id chunk)
    (chunk_setComplete r.1 (countWords r.1) (persistedDelta E (chunk_id chunk) r.2))
    T1.

(** Scenarios on the recorded stub: the job 1 started by the socket 7. *)
Module Scenario.

(** The world after [n] turns of the worker of job 1. *)
Definition after (E : Env) (n : nat) : World :=
  (run_worker E n (WStart 1) (Stub.started E)).2.

(** The worker is killed once the chunk of index [k] is complete, the
    server starts again, and the socket 9 sends [resume_job]. *)
Definition killedAfterChunk (E : Env) (k : nat) : World :=
  restartProcess (after E (2 + 2 * (k + 1))).

Definition resumed (E : Env) (k : nat) : World :=
  (resumeJob 9 1 (killedAfterChunk E k)).1.

(** The resumed job after [n] turns of its new worker. *)
Definition resumedThen (E : Env) (k n : nat) : World :=
  (run_worker E n (WStart 1) (resumed E k)).2.

(** [abort_job] arrives from the socket 7 after [n] turns of the worker,
    which then runs [m] turns more. *)
Definition abortedAfter (E : Env) (n m : nat) : Worker * World :=
  let '(wk, w) := run_worker E n (WStart 1) (Stub.started E) in
  run_worker E m wk (abortJob 7 1 w).

Definition statusOf (chunkId : nat) (w : World) : option ChunkStatus :=
  chunk_status <$> selectChunk chunkId w.

Definition jobStatus (w : World) : option JobStatus :=
  doc_status <$> selectDocument 1 w.

Definition isAbortedMsg (o : Out) : bool :=
  match o with ToJob _ (MJobAborted _ _ _ _ _) => true | _ => false end.

End Scenario.

(** The locals and the chunk rows of the worker of job 1 of a scenario. *)
Module ScenarioWorker.

Definition chunk (E : Env) (i : nat) : ChunkRow :=
  newChunkRow 1 i (S i) (calculateLengthConfig E 501 None None None)
    (("input " ++ showNat i)%string, ofZ 10).


End ScenarioWorker.

(** What [start_job] fixes of a chunk row, as opposed to what the worker
    writes. *)
Definition inputsOf (c : ChunkRow)
  : nat * nat * nat * string * number * number * number * number :=
  (chunk_id c, documentId c, chunkIndex c, chunkInputText c,
   chunkInputWords c, targetWords c, minWords c, maxWords c).

Definition sameChunk (c c' : ChunkRow) : Prop := inputsOf c = inputsOf c'.

(** The chunk table after the turns of the loop for the chunks [todo]. *)
Definition tableLoop (E : Env) (job : DocRow) (skeleton : string)
  (todo : list ChunkRow) (T : list ChunkRow) : list ChunkRow :=
  fold_left (λ T c, processedTable E job skeleton c T) todo T.

(** What the worker reads of the job row: the fields [start_job] fixes. *)
Definition sameJob (d d' : DocRow) : Prop :=
  doc_id d = doc_id d' ∧ originalText d = originalText d'
  ∧ audienceParameters d = audienceParameters d' ∧ rigorLevel d = rigorLevel d'
  ∧ numChunks d = numChunks d' ∧ lengthConfig d = lengthConfig d'.


(** The relation kept between the chunk tables of two runs: the same inputs
    row by row, and the same row wherever [settled] holds of its id. *)
Definition related (settled : nat -> Prop) (T T' : list ChunkRow) : Prop :=
  Forall2 (λ r r', sameChunk r r' ∧ (settled (chunk_id r) -> r = r')) T T'.




(** The running totals of a list of word counts, from [start]. *)
Fixpoint runningTotals (start : nat) (counts : list nat) : list nat :=
  match counts with
  | [] => []
  | n :: r => (start + n) :: runningTotals (start + n) r
  end.






(** Nothing of the world changed but the outbox, which gained [sent]. *)
Definition onlySent (sent : list Out) (w w' : World) : Prop :=
  documents w' = documents w ∧ chunks w' = chunks w
  ∧ activeJobs w' = activeJobs w ∧ clientConnections w' = clientConnections w
  ∧ trace w' = trace w ∧ outbox w' = outbox w ++ sent.

(** [resume_job] can be accepted: the job is in the store, not complete, and
    no worker is registered for it. *)
Definition resumable (jobId : nat) (w : World) : Prop :=
  ∃ job, selectDocument jobId w = Some job ∧ doc_status job ≠ JComplete
         ∧ activeJobs w !! jobId = None.

(** The number of places of [s] where a word begins: a code unit that is not
    white space and follows white space or, when [afterSpace], the start. *)
Fixpoint wordStarts (afterSpace : bool) (s : string) : nat :=
  match s with
  | EmptyString => 0
  | String c r =>
      (if afterSpace && negb (isSpace c) then 1 else 0) + wordStarts (isSpace c) r
  end.

(** All code units of [s] are white space. *)
Fixpoint allSpace (s : string) : bool :=
  match s with
  | EmptyString => true
  | String c r => isSpace c && allSpace r
  end.

(** The text and the size a [job_aborted] message of the outbox reports. *)
Definition abortedReports (o : Out) : option (string * nat) :=
  match o with
  | ToJob _ (MJobAborted _ _ _ partialOutput wordCount) =>
      Some (partialOutput, wordCount)
  | _ => None
  end.



(** The audit event an operation logged is all that changed in the tables
    of the audit database: [event] was appended to the audit events. *)
Definition onlyLogged (event : Audit.InsertAuditEvent) (db db' : Audit.Db) : Prop :=
  Audit.auditEvents db' = Audit.auditEvents db ++ [event]
  ∧ Audit.llmCalls db' = Audit.llmCalls db
  ∧ Audit.chunkProcessingLogs db' = Audit.chunkProcessingLogs db
  ∧ Audit.lengthEnforcementLogs db' = Audit.lengthEnforcementLogs db
  ∧ Audit.jobHistory db' = Audit.jobHistory db.

(** The audit events the four logging operations write first. *)
Definition llmCallEvent (params : Audit.LlmCallParams) : Audit.InsertAuditEvent :=
  {| Audit.ae_userId := Audit.lc_userId params;
     Audit.ae_jobId := Audit.lc_jobId params;
     Audit.ae_jobType := Audit.lc_jobType params;
     Audit.ae_eventType := "llm_call";
     Audit.ae_eventData :=
       Audit.LlmCallData (Audit.lc_modelName params) (Audit.lc_provider params)
         (Audit.lc_inputTokens params) (Audit.lc_outputTokens params)
         (Audit.lc_latencyMs params) (Audit.lc_status params) |}.

Definition chunkProcessingEvent (params : Audit.ChunkProcessingParams)
  : Audit.InsertAuditEvent :=
  {| Audit.ae_userId := Audit.cp_userId params;
     Audit.ae_jobId := Audit.cp_jobId params;
     Audit.ae_jobType := Audit.cp_jobType params;
     Audit.ae_eventType := "chunk_processing";
     Audit.ae_eventData :=
       Audit.ChunkProcessingData (Audit.cp_chunkIndex params)
         (Audit.cp_inputWordCount params) (Audit.cp_outputWordCount params)
         (Audit.cp_targetWordCount params) (Audit.cp_passed params)
         (Audit.cp_failureReason params) |}.

Definition lengthEnforcementEvent (params : Audit.LengthEnforcementParams)
  : Audit.InsertAuditEvent :=
  {| Audit.ae_userId := Audit.le_userId params;
     Audit.ae_jobId := Some (Audit.le_jobId params);
     Audit.ae_jobType := Some (Audit.le_jobType params);
     Audit.ae_eventType := "length_enforcement";
     Audit.ae_eventData :=
       Audit.LengthEnforcementData (Audit.le_targetWords params)
         (Audit.le_finalWords params) (Audit.le_targetMet params)
         (Audit.le_iterationsRequired params) |}.

Definition jobCreatedEvent (params : Audit.JobHistoryParams)
  : Audit.InsertAuditEvent :=
  {| Audit.ae_userId := Some (Audit.jh_userId params);
     Audit.ae_jobId := Some (Audit.jh_jobId params);
     Audit.ae_jobType := Some (Audit.jh_jobType params);
     Audit.ae_eventType := "job_created";
     Audit.ae_eventData :=
       Audit.JobCreatedData (Audit.jh_jobTitle params) (Audit.jh_status params)
         (Audit.jh_inputWordCount params) |}.

Definition statusUpdateEvent (params : Audit.JobStatusUpdateParams)
  : Audit.InsertAuditEvent :=
  {| Audit.ae_userId := None;
     Audit.ae_jobId := Some (Audit.ju_jobId params);
     Audit.ae_jobType := Some (Audit.ju_jobType params);
     Audit.ae_eventType := "job_status_update";
     Audit.ae_eventData :=
       Audit.JobStatusUpdateData (Audit.ju_status params)
         (Audit.ju_outputWordCount params) (Audit.ju_targetMet params) |}.

(* ===================================================================== *)
(** ** The streaming modal of the client: the handler of [ws.onmessage] *)
(* ===================================================================== *)

Module StreamingModal.










End StreamingModal.

(** Whether the last code unit of [s] is white space; [p] for the empty [s]. *)
Fixpoint endsInSpace (p : bool) (s : string) : bool :=
  match s with
  | EmptyString => p
  | String c r => endsInSpace (isSpace c) r
  end.


(** The job table [D'] has the rows of [D], in the same order and with the
    same ids, and its rows of the jobs other than [jobId] are those of [D]. *)
Definition otherJobsKept (jobId : nat) (D D' : list DocRow) : Prop :=
  Forall2 (λ d d', doc_id d' = doc_id d ∧ (doc_id d ≠ jobId -> d' = d)) D D'.

(** What the end of a run changes outside the two tables. *)
Definition memoryKept (jobId : nat) (w w' : World) : Prop :=
  nextDocId w' = nextDocId w ∧ nextChunkId w' = nextChunkId w
  ∧ clientConnections w' = clientConnections w
  ∧ activeJobs w' = delete jobId (activeJobs w).

(* ===================================================================== *)
(** * Properties *)
(* ===================================================================== *)

(* ===================================================================== *)
(** ** The audit service never throws *)
(* ===================================================================== *)

Section AuditFacts.

Import Audit.
Local Open Scope Z_scope.

(** [logAuditEvent] returns: -1 when its insert throws, the new id otherwise;
    either way it uses up one entry of the failures to come. *)
Lemma logAuditEvent_returns event db :
  exists v db',
    logAuditEvent event db = (Ok v, db')
    /\ faults db' = tail (faults db)
    /\ (throwsAt 0 db -> v = -1)
    /\ (~ throwsAt 0 db -> 0 < v).
Proof.
  unfold logAuditEvent, try_catch, bind, insert, ret, throwsAt.
  destruct (faults db) as [|[e|] r] eqn:Hf; simpl.
  - eexists _, _. split; [reflexivity|]. simpl.
    split; [reflexivity|]. split; [intros [x Hx]; discriminate | lia].
  - eexists _, _. split; [reflexivity|]. simpl.
    split; [reflexivity|]. split; [reflexivity | intros H; destruct H; eauto].
  - eexists _, _. split; [reflexivity|]. simpl.
    split; [reflexivity|]. split; [intros [x Hx]; discriminate | lia].
Qed.

(** The shape shared by the four other operations: an audit event, then the
    insert of the operation, the whole in a [try]. *)
Lemma logged_insert_returns {R} (table : Db -> list R) store (row : Z -> R)
  event db :
  (forall l d, faults (store l d) = faults d) ->
  exists v db',
    try_catch
      (a <- logAuditEvent event ;; id <- insert table store (row a) ;; ret id)
      (λ _, ret (-1)) db = (Ok v, db')
    /\ (v = -1 <-> throwsAt 1 db).
Proof.
  intros Hstore.
  destruct (logAuditEvent_returns event db) as (a & db1 & Ha & Hf & _ & _).
  unfold try_catch, bind at 1. rewrite Ha.
  unfold bind, insert, ret, throwsAt.
  assert (Hnext : faults db !! 1%nat = head (faults db1)).
  { rewrite Hf. destruct (faults db) as [|x [|y r]]; reflexivity. }
  rewrite Hnext.
  destruct (head (faults db1)) as [[e|]|] eqn:Hh; simpl.
  - eexists _, _. split; [reflexivity|]. split; [eauto | reflexivity].
  - eexists _, _. split; [reflexivity|].
    split; [lia | intros [x Hx]; discriminate].
  - eexists _, _. split; [reflexivity|].
    split; [lia | intros [x Hx]; discriminate].
Qed.

(** C10 (as amended): each of the five audit operations returns on every
    database, whatever inserts fail: none of them throws.  The sentinel -1
    is returned exactly when the insert of the operation itself throws;
    for the four operations that first log an audit event, a failure of that
    first insert alone is swallowed and the id of the second insert is
    returned. *)
Theorem audit_operations_never_throw (db : Db) :
  (forall event, exists v db',
      logAuditEvent event db = (Ok v, db') /\ (v = -1 <-> throwsAt 0 db))
  /\ (forall params, exists v db',
      logLLMCall params db = (Ok v, db') /\ (v = -1 <-> throwsAt 1 db))
  /\ (forall params, exists v db',
      logChunkProcessing params db = (Ok v, db') /\ (v = -1 <-> throwsAt 1 db))
  /\ (forall params, exists v db',
      logLengthEnforcement params db = (Ok v, db') /\ (v = -1 <-> throwsAt 1 db))
  /\ (forall params, exists v db',
      createJobHistoryEntry params db = (Ok v, db') /\ (v = -1 <-> throwsAt 1 db)).
Proof.
  split; [|repeat split].
  - intros event.
    destruct (logAuditEvent_returns event db) as (v & db' & H & _ & Hm & Hp).
    exists v, db'. split; [exact H|]. split.
    + intros ->. destruct (decide (throwsAt 0 db)) as [|Hn]; [assumption|].
      specialize (Hp Hn). lia.
    + exact Hm.
  - intros params. unfold logLLMCall.
    apply (logged_insert_returns llmCalls store_llmCalls
             (λ a, {| lr_params := params;
                      lr_auditEventId := if 0 <? a then Some a else None;
                      lr_status := _ |})).
    reflexivity.
  - intros params. unfold logChunkProcessing.
    apply (logged_insert_returns chunkProcessingLogs store_chunkProcessingLogs
             (λ _, {| cr_params := params; cr_retryNumber := _ |})).
    reflexivity.
  - intros params. unfold logLengthEnforcement.
    apply (logged_insert_returns lengthEnforcementLogs
             store_lengthEnforcementLogs (λ _, params)).
    reflexivity.
  - intros params. unfold createJobHistoryEntry.
    apply (logged_insert_returns jobHistory store_jobHistory (λ _, params)).
    reflexivity.
Qed.

(** C10 (as stated) fails: the insert into the audit table throws, a
    database failure, and [logLLMCall] still returns the id 1 of the row it
    inserts next, not -1. *)
Lemma logLLMCall_returns_id_after_failure :
  (logLLMCall AuditSample.llmCall AuditSample.auditTableDown).1 = Ok 1
  /\ failureBetween AuditSample.auditTableDown
       (logLLMCall AuditSample.llmCall AuditSample.auditTableDown).2.
Proof. split; [reflexivity | vm_compute; lia]. Qed.

End AuditFacts.

(* ===================================================================== *)
(** ** Starting a job: input limits and length bands *)
(* ===================================================================== *)

Section StartFacts.

Variable E : Env.

Lemma insertChunks_spec jobId lc cs : forall i w,
  exists created,
    chunks (insertChunks jobId lc i cs w) = chunks w ++ created
    /\ Forall lengthBand created
    /\ chunkIndex <$> created = seq i (length cs)
    /\ Forall (λ c, documentId c = jobId ∧ chunk_status c = CPending) created.
Proof.
  induction cs as [|c cs IH]; intros i w; simpl.
  - exists []. rewrite app_nil_r. repeat split; constructor.
  - destruct (IH (S i) (insertChunk (λ id, newChunkRow jobId i id lc c) w))
      as (created & Hc & Hband & Hidx & Hst).
    exists (newChunkRow jobId i (nextChunkId w) lc c :: created).
    split; [|split; [|split]].
    + rewrite Hc. simpl. by rewrite <- app_assoc.
    + constructor; [|assumption]. split; reflexivity.
    + by rewrite fmap_cons, Hidx.
    + constructor; [|assumption]. split; reflexivity.
Qed.

Lemma insertChunks_documents jobId lc cs : forall i w,
  documents (insertChunks jobId lc i cs w) = documents w.
Proof. induction cs as [|c cs IH]; intros i w; simpl; [done|]. by rewrite IH. Qed.

Lemma app_singleton_neq {A} (l : list A) x : l ≠ l ++ [x].
Proof.
  intros H. apply (f_equal length) in H. rewrite length_app in H. simpl in H. lia.
Qed.

(** C4: with a store that takes the insert of the job row, [start_job]
    creates the job exactly when the text counts between 501 and 50,000
    words; outside these limits the request is answered by one error message
    and neither table nor in-memory map changes. *)
Theorem start_job_created_iff_accepted ws text instructions audience rigor w :
  documentInsertError E text = None ->
  (jobCreated text w (startStreamingJob E ws text instructions audience rigor w).1
   <-> acceptedWordCount text)
  /\ (~ acceptedWordCount text ->
      rejected ws w (startStreamingJob E ws text instructions audience rigor w).1
      /\ (startStreamingJob E ws text instructions audience rigor w).2 = None).
Proof.
  intros Hins. unfold startStreamingJob, acceptedWordCount, insertDocument.
  rewrite Hins.
  destruct (Z.ltb_spec 50000 (Z.of_nat (countWords text))) as [Hhi|Hhi].
  { split.
    - split; [|lia]. intros (job & Hd & _). simpl in Hd.
      by apply app_singleton_neq in Hd.
    - intros _. split; [|done]. eexists. by repeat split. }
  destruct (Z.leb_spec (Z.of_nat (countWords text)) 500) as [Hlo|Hlo].
  { split.
    - split; [|lia]. intros (job & Hd & _). simpl in Hd.
      by apply app_singleton_neq in Hd.
    - intros _. split; [|done]. eexists. by repeat split. }
  split; [|lia].
  split; [lia|]. intros _. unfold jobCreated. simpl.
  eexists. rewrite insertChunks_documents. simpl. by repeat split.
Qed.

(** C6: the chunk rows [start_job] adds to the store all carry the band
    [minWords = floor(targetWords * 0.85)], [maxWords = ceil(targetWords * 1.15)];
    when rows are added they are those of the indices 0, 1, ... of the job,
    one per chunk of the chunker. *)
Theorem start_job_length_bands ws text instructions audience rigor w :
  exists created,
    chunks (startStreamingJob E ws text instructions audience rigor w).1
      = chunks w ++ created
    /\ Forall lengthBand created
    /\ (created = [] \/ chunkIndex <$> created = seq 0 (length (smartChunk E text))).
Proof.
  unfold startStreamingJob.
  destruct (50000 <? _)%Z.
  { exists []. rewrite app_nil_r. by repeat split; [constructor | left]. }
  destruct (_ <=? 500)%Z.
  { exists []. rewrite app_nil_r. by repeat split; [constructor | left]. }
  destruct (insertDocument _ _ _ _ _ _ _ _ _) as [err|[job w1]] eqn:Hi.
  { exists []. rewrite app_nil_r. by repeat split; [constructor | left]. }
  simpl.
  destruct (insertChunks_spec (doc_id job)
              (calculateLengthConfig E (countWords text)
                 (parseTargetLength E instructions ≫= fst)
                 (parseTargetLength E instructions ≫= snd) instructions)
              (smartChunk E text) 0 w1) as (created & Hc & Hb & Hidx & _).
  exists created. rewrite Hc.
  unfold insertDocument in Hi. destruct (documentInsertError E text); [done|].
  injection Hi as _ <-. simpl. by repeat split; [| right].
Qed.

End StartFacts.

(** The witness of C4: the recorded stub and a text of 501 words. *)
Lemma start_job_created_iff_accepted_witness :
  documentInsertError (Stub.env 3 10 true) (words 501) = None
  /\ (jobCreated (words 501) Stub.emptyWorld (Stub.started (Stub.env 3 10 true))
      <-> acceptedWordCount (words 501)).
Proof.
  split; [reflexivity|].
  apply (start_job_created_iff_accepted (Stub.env 3 10 true) 7 (words 501)
           None None None Stub.emptyWorld).
  reflexivity.
Defined.

(** Up to a target of 4000 words, the ceiling of the chunk targets, the
    binary64 products by 0.85 and 1.15 round to the exact floor and ceiling. *)
Lemma length_band_exact_up_to_4000 : allUpTo 4000 bandIsExact = true.
Proof. vm_compute. reflexivity. Qed.

(* ===================================================================== *)
(** ** The under-production check *)
(* ===================================================================== *)

(** The check is made, and the warning sent, exactly at the indices from 19 on
    that are multiples of ten, when the shortfall exceeds 25. *)
Lemma lengthWarning_sent_iff jobId k target projected :
  is_Some (lengthWarning jobId k target projected)
  <-> 19 ≤ k ∧ k mod 10 = 0
      ∧ gt (shortfallPercent target projected) (ofZ 25) = true.
Proof.
  unfold lengthWarning.
  destruct (Nat.leb_spec 19 k) as [H19|H19];
    destruct (Nat.eqb_spec (k mod 10) 0) as [Hm|Hm]; cbn [andb];
    try (split; [intros [x Hx]; discriminate | intros (? & ? & ?); lia]).
  destruct (gt _ _); split.
  - done.
  - intros _. eexists. reflexivity.
  - intros [x Hx]. discriminate.
  - intros (_ & _ & ?). discriminate.
Qed.

Lemma lengthWarning_carries jobId k target projected m :
  lengthWarning jobId k target projected = Some m ->
  wm_projectedFinal m = projected ∧ wm_targetWords m = target
  ∧ wm_shortfall m = Math_round (shortfallPercent target projected).
Proof.
  unfold lengthWarning. destruct (_ && _); [|done]. destruct (gt _ _); [|done].
  intros [= <-]. done.
Qed.

(** No check at the index 19, whatever the shortfall. *)
Lemma lengthWarning_not_at_19 jobId target projected :
  lengthWarning jobId 19 target projected = None.
Proof. reflexivity. Qed.

(** C5, on a job of 21 chunks whose every chunk comes back with 4 words for a
    target of 10: after the chunk of index 19 the projection is 84 words for
    a target of 210, a shortfall of 60 percent, and no warning is sent; the
    only warning of the run follows the chunk of index 20. *)
Theorem under_production_not_checked_at_19 :
  Stub.completions
    (outbox (processJobAsync (Stub.env 21 4 true) 1 (Stub.started (Stub.env 21 4 true))))
  = seq 0 21
  /\ Stub.warningsAfter 0
       (outbox (processJobAsync (Stub.env 21 4 true) 1 (Stub.started (Stub.env 21 4 true))))
     = [20]
  /\ projectedFinalWords 80 19 21 = ofZ 84
  /\ shortfallPercent (ofNat 210) (projectedFinalWords 80 19 21) = ofZ 60
  /\ lengthWarning 1 19 (ofNat 210) (projectedFinalWords 80 19 21) = None
  /\ is_Some (lengthWarning 1 20 (ofNat 210) (projectedFinalWords 84 20 21)).
Proof.
  repeat split; try (vm_compute; reflexivity).
  vm_compute. eexists. reflexivity.
Qed.

(* ===================================================================== *)
(** ** The delta store: prior deltas and the coherence summary *)
(* ===================================================================== *)

Section OrderFacts.

Lemma insertByIndex_perm c l : insertByIndex c l ≡ₚ c :: l.
Proof.
  induction l as [|x l IH]; simpl; [done|].
  destruct (chunkIndex c <=? chunkIndex x); [done|].
  rewrite IH. apply Permutation_swap.
Qed.

Lemma orderByIndex_perm l : orderByIndex l ≡ₚ l.
Proof.
  induction l as [|x l IH]; simpl; [done|].
  by rewrite insertByIndex_perm, IH.
Qed.

Lemma insertByIndex_sorted c l :
  StronglySorted indexLe l -> StronglySorted indexLe (insertByIndex c l).
Proof.
  induction 1 as [|x l Hs IH Hall]; simpl.
  - repeat constructor.
  - destruct (Nat.leb_spec (chunkIndex c) (chunkIndex x)) as [Hle|Hgt].
    + constructor; [by constructor|].
      constructor; [exact Hle|].
      eapply Forall_impl; [exact Hall|]. unfold indexLe. intros y Hy. lia.
    + constructor; [exact IH|].
      rewrite insertByIndex_perm. constructor; [|exact Hall].
      unfold indexLe. lia.
Qed.

Lemma orderByIndex_sorted l : StronglySorted indexLe (orderByIndex l).
Proof.
  induction l as [|x l IH]; simpl; [constructor|].
  by apply insertByIndex_sorted.
Qed.


End OrderFacts.

Section SummaryFacts.

Lemma sliceLast_length {A} n (l : list A) : length (sliceLast n l) ≤ n.
Proof. unfold sliceLast. rewrite length_drop. lia. Qed.

Lemma sliceLast_suffix {A} n (l : list A) : sliceLast n l `suffix_of` l.
Proof. apply suffix_drop. Qed.

Lemma sliceLast_nil_iff {A} n (l : list A) :
  0 < n -> sliceLast n l = [] <-> l = [].
Proof.
  intros Hn. split; [|by intros ->].
  intros H. apply (f_equal length) in H. unfold sliceLast in H.
  rewrite length_drop in H. simpl in H.
  destruct l; [done|simpl in H; lia].
Qed.

Lemma uniqueFrom_spec l : forall seen,
  NoDup (uniqueFrom seen l)
  ∧ (∀ x, x ∈ uniqueFrom seen l <-> x ∈ l ∧ x ∉ seen).
Proof.
  induction l as [|y l IH]; intros seen; simpl.
  - split; [constructor|]. intros x. rewrite elem_of_nil. tauto.
  - destruct (decide (y ∈ seen)) as [Hy|Hy].
    + destruct (IH seen) as [Hnd Hin]. split; [exact Hnd|].
      intros x. rewrite Hin, elem_of_cons. split; [tauto|].
      intros [[->|?] ?]; tauto.
    + destruct (IH (y :: seen)) as [Hnd Hin]. split.
      * constructor; [|exact Hnd]. rewrite Hin, elem_of_cons. tauto.
      * intros x. rewrite !elem_of_cons, Hin, elem_of_cons.
        destruct (decide (x = y)) as [->|Hne]; tauto.
Qed.

Lemma unique_NoDup l : NoDup (unique l).
Proof. apply uniqueFrom_spec. Qed.

Lemma elem_of_unique l x : x ∈ unique l <-> x ∈ l.
Proof.
  unfold unique. destruct (uniqueFrom_spec l []) as [_ H].
  rewrite H, elem_of_nil. tauto.
Qed.

(** What the [forEach] leaves in the three arrays: the claims, terms and
    conflict descriptions of the deltas, in order. *)
Lemma accumulate_from ds : forall (g : nat -> nat) acc,
  let acc' := fold_left accumulateDelta (imap (λ i d, (g i, d)) ds) acc in
  accumulatedClaims acc'
    = accumulatedClaims acc ++ (ds ≫= λ d, default [] (newClaimsIntroduced d))
  ∧ accumulatedTerms acc'
    = accumulatedTerms acc ++ (ds ≫= λ d, default [] (termsUsed d))
  ∧ accumulatedConflicts acc'
    = accumulatedConflicts acc
      ++ (ds ≫= λ d, description <$> default [] (conflictsDetected d)).
Proof.
  induction ds as [|d ds IH]; intros g acc; simpl.
  - by rewrite !app_nil_r.
  - destruct (IH (g ∘ S) (accumulateDelta acc (g 0, d))) as (H1 & H2 & H3).
    simpl in *. unfold compose in *.
    rewrite H1, H2, H3. simpl. by rewrite <- !app_assoc.
Qed.

Lemma accumulate_spec ds :
  accumulatedClaims (accumulate ds)
    = ds ≫= (λ d, default [] (newClaimsIntroduced d))
  ∧ accumulatedTerms (accumulate ds)
    = ds ≫= (λ d, default [] (termsUsed d))
  ∧ accumulatedConflicts (accumulate ds)
    = ds ≫= (λ d, description <$> default [] (conflictsDetected d)).
Proof. apply (accumulate_from ds id). Qed.

Lemma string_append_assoc (a b c : string) :
  ((a ++ b) ++ c = a ++ (b ++ c))%string.
Proof.
  induction a as [|x a IH]; [done|].
  change (String x ((a ++ b) ++ c) = String x (a ++ b ++ c))%string.
  by rewrite IH.
Qed.

Lemma string_append_empty (a : string) : (a ++ "" = a)%string.
Proof.
  induction a as [|x a IH]; [done|].
  change (String x (a ++ "") = String x a)%string. by rewrite IH.
Qed.

(** The summary text is the rendering of the three lists shown. *)
Lemma buildPriorDeltasSummary_renders ds :
  ds ≠ [] ->
  buildPriorDeltasSummary ds
  = renderSummary (length ds) (shownClaims ds) (shownTerms ds) (shownConflicts ds).
Proof.
  intros Hne. unfold buildPriorDeltasSummary, renderSummary.
  destruct (decide (length ds = 0)) as [H0|_].
  { destruct ds; [done|discriminate]. }
  unfold shownClaims, shownTerms, shownConflicts.
  destruct (decide (0 < length (accumulatedConflicts (accumulate ds)))) as [Hc|Hc].
  - destruct (sliceLast 5 (accumulatedConflicts (accumulate ds))) eqn:Hs.
    { apply sliceLast_nil_iff in Hs; [|lia]. rewrite Hs in Hc. simpl in Hc. lia. }
    rewrite <- Hs. by rewrite !string_append_assoc.
  - assert (accumulatedConflicts (accumulate ds) = []) as ->.
    { destruct (accumulatedConflicts (accumulate ds)); [done|simpl in Hc; lia]. }
    unfold sliceLast at 3. simpl.
    by rewrite !string_append_assoc, string_append_empty.
Qed.

End SummaryFacts.

(** C7: [getPriorDeltas] returns the non-null deltas of the rows of the job
    whose index is below [k], taken in ascending index order (none for
    [k = 0]); and the summary built from any list of deltas is the rendering
    of three lists: the last 15 at most of the accumulated claims, 20 at most
    of the terms without repetition, the last 5 at most of the conflict
    descriptions. *)
Theorem prior_deltas_and_bounded_summary (jobId k : nat) (w : World)
  (ds : list ChunkDelta) :
  (getPriorDeltas jobId 0 w).1 = []
  ∧ (∃ rows,
        (getPriorDeltas jobId k w).1 = omap chunkDelta rows
        ∧ StronglySorted indexLe rows
        ∧ rows ≡ₚ filter (λ c, documentId c = jobId ∧ chunkIndex c < k) (chunks w))
  ∧ (length (shownClaims ds) ≤ 15
     ∧ shownClaims ds `suffix_of` (ds ≫= λ d, default [] (newClaimsIntroduced d)))
  ∧ (length (shownTerms ds) ≤ 20 ∧ NoDup (shownTerms ds)
     ∧ shownTerms ds ⊆ (ds ≫= λ d, default [] (termsUsed d)))
  ∧ (length (shownConflicts ds) ≤ 5
     ∧ shownConflicts ds
         `suffix_of` (ds ≫= λ d, description <$> default [] (conflictsDetected d)))
  ∧ buildPriorDeltasSummary ds
    = match ds with
      | [] => "This is the first chunk. No prior context to maintain."%string
      | _ => renderSummary (length ds) (shownClaims ds) (shownTerms ds)
               (shownConflicts ds)
      end.
Proof.
  destruct (accumulate_spec ds) as (Hcl & Hte & Hco).
  split; [reflexivity|]. split; [|split; [|split; [|split]]].
  - exists (selectPrior jobId k w). unfold getPriorDeltas, selectPrior.
    split; [|split].
    + destruct (decide (k = 0)) as [->|Hk]; [|done]. simpl.
      assert (filter (λ c, documentId c = jobId ∧ chunkIndex c < 0) (chunks w) = [])
        as ->; [|done].
      induction (chunks w) as [|c l IH]; [done|].
      rewrite filter_cons_False; [exact IH|lia].
    + apply orderByIndex_sorted.
    + apply orderByIndex_perm.
  - split; [apply sliceLast_length|]. rewrite <- Hcl. apply sliceLast_suffix.
  - split; [apply sliceLast_length|]. unfold shownTerms. split.
    + eapply sublist_NoDup; [apply unique_NoDup | apply sublist_drop].
    + intros x Hx. rewrite <- Hte. apply elem_of_unique.
      eapply elem_of_suffix; [exact Hx|]. apply sliceLast_suffix.
  - split; [apply sliceLast_length|]. rewrite <- Hco. apply sliceLast_suffix.
  - destruct ds as [|d ds']; [reflexivity|].
    by apply buildPriorDeltasSummary_renders.
Qed.

(* ===================================================================== *)
(** ** The cleanup sweep *)
(* ===================================================================== *)

Section CleanupFacts.

Lemma filter_filter_implied {A} (P Q : A -> Prop)
  `{∀ x, Decision (P x)} `{∀ x, Decision (Q x)} (l : list A) :
  (∀ x, P x -> Q x) -> filter P (filter Q l) = filter P l.
Proof.
  intros HPQ. rewrite list_filter_filter. apply list_filter_iff.
  intros x. split; [tauto|]. intros HP. split; [exact HP | by apply HPQ].
Qed.

Lemma fmap_NoDup_inj {A B} (f : A -> B) (l : list A) x y :
  NoDup (f <$> l) -> x ∈ l -> y ∈ l -> f x = f y -> x = y.
Proof.
  induction l as [|a l IH]; intros Hnd Hx Hy Hf; [by apply elem_of_nil in Hx|].
  rewrite fmap_cons in Hnd. apply NoDup_cons in Hnd as [Ha Hnd].
  apply elem_of_cons in Hx as [->|Hx]; apply elem_of_cons in Hy as [->|Hy].
  - done.
  - exfalso. apply Ha. rewrite Hf. by apply list_elem_of_fmap_2.
  - exfalso. apply Ha. rewrite <- Hf. by apply list_elem_of_fmap_2.
  - by apply IH.
Qed.

Lemma head_filter_key {A} (key : A -> nat) (l : list A) x :
  NoDup (key <$> l) -> x ∈ l ->
  head (filter (λ y, key y = key x) l) = Some x.
Proof.
  induction l as [|a l IH]; intros Hnd Hx; [by apply elem_of_nil in Hx|].
  rewrite fmap_cons in Hnd. apply NoDup_cons in Hnd as [Ha Hnd].
  apply elem_of_cons in Hx as [->|Hx].
  - by rewrite filter_cons_True.
  - rewrite filter_cons_False; [by apply IH|].
    intros Heq. apply Ha. rewrite Heq. by apply list_elem_of_fmap_2.
Qed.

Variable w0 : World.
Let cutoff : Z := (now w0 - dayMs)%Z.

(** The sweep, once the ids [D] have been deleted and with the ids [ids]
    still to visit. *)
Lemma cleanup_loop ids : forall D w,
  documents w = filter (λ d, doc_id d ∉ D) (documents w0) ->
  chunks w = filter (λ c, documentId c ∉ D) (chunks w0) ->
  NoDup (D ++ ids) ->
  (fold_left (cleanupJob cutoff) ids (length D, w)).1
  = length (D ++ filter (λ i, oldId cutoff (documents w0) i = true) ids)
  ∧ documents (fold_left (cleanupJob cutoff) ids (length D, w)).2
    = filter
        (λ d, doc_id d ∉ D ++ filter (λ i, oldId cutoff (documents w0) i = true) ids)
        (documents w0)
  ∧ chunks (fold_left (cleanupJob cutoff) ids (length D, w)).2
    = filter
        (λ c, documentId c
              ∉ D ++ filter (λ i, oldId cutoff (documents w0) i = true) ids)
        (chunks w0).
Proof.
  induction ids as [|i ids IH]; intros D w Hd Hc Hnd.
  - simpl. rewrite app_nil_r. done.
  - cbn [fold_left].
    assert (Hi : i ∉ D).
    { apply NoDup_app in Hnd as (_ & Hdisj & _). intros Hin.
      apply (Hdisj i Hin). left. }
    assert (Hnd' : NoDup ((D ++ [i]) ++ ids)) by by rewrite <- app_assoc.
    assert (Hnd'' : NoDup (D ++ ids)).
    { apply NoDup_app in Hnd as (H1 & H2 & H3). apply NoDup_cons in H3 as [_ H3].
      apply NoDup_app. split; [done|]. split; [|done].
      intros x Hx Hx'. apply (H2 x Hx). by right. }
    assert (Hsel : selectDocument i w = head (filter (λ d, doc_id d = i) (documents w0))).
    { unfold selectDocument. rewrite Hd. f_equal.
      apply filter_filter_implied. by intros x ->. }
    assert (Hstep : cleanupJob cutoff (length D, w) i
                    = if oldId cutoff (documents w0) i
                      then (S (length D), deleteJob i w) else (length D, w)).
    { unfold cleanupJob, oldId. rewrite Hsel.
      by destruct (head (filter (λ d, doc_id d = i) (documents w0))). }
    rewrite Hstep. clear Hstep.
    destruct (oldId cutoff (documents w0) i) eqn:Hold.
    + rewrite filter_cons_True by done.
      rewrite !(cons_middle i D), !app_assoc.
      replace (S (length D)) with (length (D ++ [i]))
        by (rewrite length_app; simpl; lia).
      apply IH.
      * simpl. rewrite Hd, list_filter_filter. apply list_filter_iff.
        intros x. rewrite elem_of_app, list_elem_of_singleton. tauto.
      * simpl. rewrite Hc, list_filter_filter. apply list_filter_iff.
        intros x. rewrite elem_of_app, list_elem_of_singleton. tauto.
      * by rewrite <- app_assoc.
    + rewrite filter_cons_False by (rewrite Hold; discriminate).
      by apply IH.
Qed.

Hypothesis ids_unique : NoDup (doc_id <$> documents w0).

Lemma deleted_iff_expired d :
  d ∈ documents w0 ->
  doc_id d ∈ filter (λ i, oldId cutoff (documents w0) i = true)
              (doc_id <$> filter (λ d, doc_status d = JComplete) (documents w0))
  <-> expiredAt (now w0) d.
Proof.
  intros Hin. rewrite list_elem_of_filter, list_elem_of_fmap. unfold oldId.
  rewrite (head_filter_key doc_id _ d ids_unique Hin).
  unfold expiredAt. fold cutoff. rewrite Z.ltb_lt. split.
  - intros (Hold & d' & Hid & Hd'). apply list_elem_of_filter in Hd' as [Hst Hd'].
    assert (d = d') as <- by (eapply fmap_NoDup_inj; eauto). done.
  - intros [Hst Hold]. split; [done|]. exists d. split; [done|].
    by apply list_elem_of_filter.
Qed.

(** C9 (as amended): the sweep deletes exactly the jobs that are [complete]
    and were last updated more than 24 hours ago, together with their
    chunks, and returns their number; every other job, an aborted one
    included, stays. *)
Theorem cleanup_deletes_exactly_expired_complete_jobs :
  (∀ d, d ∈ documents (cleanupOldJobs w0).2
        <-> d ∈ documents w0 ∧ ¬ expiredAt (now w0) d)
  ∧ (∀ c, c ∈ chunks (cleanupOldJobs w0).2
          <-> c ∈ chunks w0
              ∧ ¬ ∃ d, d ∈ documents w0 ∧ doc_id d = documentId c
                       ∧ expiredAt (now w0) d)
  ∧ (cleanupOldJobs w0).1
    = length (filter (expiredAt (now w0)) (documents w0)).
Proof.
  unfold cleanupOldJobs. fold cutoff.
  set (ids := doc_id <$> filter (λ d, doc_status d = JComplete) (documents w0)).
  assert (Hids : NoDup ids).
  { unfold ids. eapply sublist_NoDup; [exact ids_unique|].
    apply fmap_sublist, sublist_filter. }
  assert (Hall : ∀ {A} (f : A -> nat) (l : list A), l = filter (λ x, f x ∉ []) l).
  { intros A f l. induction l as [|x l IH]; [done|].
    rewrite filter_cons_True by apply not_elem_of_nil. by rewrite <- IH. }
  destruct (cleanup_loop ids [] w0) as (Hn & Hd & Hc);
    [apply Hall | apply Hall | exact Hids |].
  simpl in Hn, Hd, Hc. unfold ids in *. clear Hall. split; [|split].
  - intros d. rewrite Hd, list_elem_of_filter. split.
    + intros [Hnot Hin]. split; [done|]. by rewrite <- deleted_iff_expired.
    + intros [Hin Hnot]. split; [|done]. by rewrite deleted_iff_expired.
  - intros c. rewrite Hc, list_elem_of_filter. split.
    + intros [Hnot Hin]. split; [done|]. intros (d & Hd' & Hid & Hexp).
      apply Hnot. rewrite <- Hid. by apply deleted_iff_expired.
    + intros [Hin Hnot]. split; [|done]. intros Hdel. apply Hnot.
      pose proof Hdel as Hdel'.
      apply list_elem_of_filter in Hdel' as [_ Hdel'].
      apply list_elem_of_fmap in Hdel' as (d & Hid & Hd').
      apply list_elem_of_filter in Hd' as [_ Hd'].
      exists d. split; [done|]. split; [done|].
      apply deleted_iff_expired; [done|]. by rewrite <- Hid.
  - rewrite Hn. clear Hn Hd Hc. unfold ids.
    rewrite <- (length_fmap doc_id (filter (expiredAt (now w0)) (documents w0))).
    f_equal.
    assert (Hsub : ∀ l, l ⊆ documents w0 ->
              filter (λ i, oldId cutoff (documents w0) i = true)
                (doc_id <$> filter (λ d, doc_status d = JComplete) l)
              = doc_id <$> filter (expiredAt (now w0)) l).
    { induction l as [|d l IH]; intros Hl; [done|].
      assert (Hd : d ∈ documents w0) by (apply Hl; left).
      assert (Hl' : l ⊆ documents w0) by (intros x Hx; apply Hl; by right).
      assert (Hold : oldId cutoff (documents w0) (doc_id d) = true
                     <-> (updatedAt d < cutoff)%Z).
      { unfold oldId. rewrite (head_filter_key doc_id _ d ids_unique Hd).
        apply Z.ltb_lt. }
      unfold expiredAt in *. fold cutoff in IH |- *.
      destruct (decide (doc_status d = JComplete)) as [Hst|Hst].
      - rewrite (filter_cons_True (λ d, doc_status d = JComplete)) by done.
        rewrite fmap_cons.
        destruct (decide (updatedAt d < cutoff)%Z) as [Ho|Ho].
        + rewrite !filter_cons_True by tauto. rewrite fmap_cons. f_equal.
          by apply IH.
        + rewrite !filter_cons_False by tauto. by apply IH.
      - rewrite (filter_cons_False (λ d, doc_status d = JComplete)) by done.
        rewrite filter_cons_False by tauto. by apply IH. }
    by apply Hsub.
Qed.

End CleanupFacts.

(** The witness of C9: the store of the sample, two days after its jobs ended. *)
Lemma cleanup_deletes_exactly_expired_complete_jobs_witness :
  NoDup (doc_id <$> documents CleanupSample.twoDaysLater)
  ∧ (cleanupOldJobs CleanupSample.twoDaysLater).1
    = length (filter (expiredAt (now CleanupSample.twoDaysLater))
                (documents CleanupSample.twoDaysLater)).
Proof.
  assert (H : NoDup (doc_id <$> documents CleanupSample.twoDaysLater)).
  { simpl. apply NoDup_cons. split; [|apply NoDup_singleton].
    rewrite list_elem_of_singleton. discriminate. }
  split; [exact H|].
  apply (cleanup_deletes_exactly_expired_complete_jobs CleanupSample.twoDaysLater H).
Defined.

(** C9 (as stated) fails: an aborted job last updated two days ago is still in
    the store after the sweep, which deleted the complete job only. *)
Lemma aborted_job_survives_cleanup :
  doc_status (CleanupSample.job 2 JAborted) = JAborted
  ∧ (updatedAt (CleanupSample.job 2 JAborted)
     < now CleanupSample.twoDaysLater - dayMs)%Z
  ∧ documents (cleanupOldJobs CleanupSample.twoDaysLater).2
    = [CleanupSample.job 2 JAborted]
  ∧ (cleanupOldJobs CleanupSample.twoDaysLater).1 = 1.
Proof. repeat split. Qed.

(* ===================================================================== *)
(** ** One turn of the loop *)
(* ===================================================================== *)

Section TurnFacts.

Variable E : Env.

Lemma chunkWrites_app t1 t2 :
  chunkWrites (t1 ++ t2) = chunkWrites t1 ++ chunkWrites t2.
Proof.
  induction t1 as [|e t1 IH]; [done|]. destruct e; simpl; by rewrite ?IH.
Qed.


Lemma getPriorDeltas_fst jobId k w :
  (getPriorDeltas jobId k w).1 = tableDeltas jobId k (chunks w).
Proof.
  unfold getPriorDeltas, tableDeltas, selectPrior. by destruct (decide (k = 0)).
Qed.

(** [getPriorDeltas] reads; it may only add a warning to the console. *)
Lemma getPriorDeltas_snd jobId k w :
  ∃ warnings,
    (getPriorDeltas jobId k w).2
    = {| documents := documents w; chunks := chunks w;
         nextDocId := nextDocId w; nextChunkId := nextChunkId w;
         activeJobs := activeJobs w; clientConnections := clientConnections w;
         outbox := outbox w; trace := trace w ++ warnings; now := now w |}
    ∧ chunkWrites warnings = [] ∧ collaboratorCalls warnings = [].
Proof.
  unfold getPriorDeltas. destruct (decide (k = 0)).
  - exists []. rewrite app_nil_r. by destruct w.
  - simpl. destruct (decide (0 < _)).
    + eexists [_]. by split.
    + exists []. rewrite app_nil_r. by destruct w.
Qed.

(** What a turn of the loop leaves, field by field. *)
Lemma processChunk_spec L chunk w :
  let r := reconstructed E (l_job L) (l_skeleton L) chunk (chunks w) in
  let stored := persistedDelta E (chunk_id chunk) r.2 in
  let w' := (processChunk E L chunk w).2 in
  chunks w'
  = updateRows chunk_id (chunk_id chunk)
      (chunk_setComplete r.1 (countWords r.1) stored) (chunks w)
  ∧ activeJobs w' = activeJobs w
  ∧ clientConnections w' = clientConnections w
  ∧ now w' = now w
  ∧ documents w'
    = updateRows doc_id (l_jobId L)
        (doc_setCurrentChunk (chunkIndex chunk + 1) (now w)) (documents w)
  ∧ trace w'
    = trace (getPriorDeltas (l_jobId L) (chunkIndex chunk) w).2
      ++ [EvReconstruct (l_jobId L) (chunkIndex chunk);
          EvChunkWrite (chunk_id chunk) CComplete]
      ++ match selectChunk (chunk_id chunk) w' ≫= chunkDelta with
         | None => [EvWarnVerify (chunkIndex chunk)]
         | Some _ => []
         end
  ∧ (∃ m rest,
        outbox w' = outbox w ++ ToJob (l_jobId L) (MChunkComplete m) :: rest
        ∧ cc_chunkIndex m = chunkIndex chunk ∧ cc_chunkText m = r.1
        ∧ Forall (λ o, ∀ j c, o ≠ ToJob j (MChunkComplete c)) rest)
  ∧ (processChunk E L chunk w).1
    = set_running (l_runningWordCount L + countWords r.1) L.
Proof.
  intros r stored w'. subst r stored w'.
  unfold processChunk, reconstructed.
  pose proof (getPriorDeltas_fst (l_jobId L) (chunkIndex chunk) w) as Hfst.
  destruct (getPriorDeltas_snd (l_jobId L) (chunkIndex chunk) w)
    as (warnings & Hsnd & _).
  destruct (getPriorDeltas (l_jobId L) (chunkIndex chunk) w) as [ds w1].
  simpl in Hfst, Hsnd. subst ds w1. unfold l_jobId.
  destruct (reconstructChunkConstrained E _ _ _ _ _ _) as [out delta].
  cbn [fst snd].
  set (wv := updateChunk (chunk_id chunk) CComplete _ _).
  assert (Hsel : ∀ x, selectChunk (chunk_id chunk) x = head (filter (λ c, chunk_id c = chunk_id chunk) (chunks x)))
    by done.
  destruct (selectChunk (chunk_id chunk) wv ≫= chunkDelta) eqn:Hv;
    destruct (lengthWarning _ _ _ _) eqn:Hw;
    rewrite !Hsel; rewrite Hsel in Hv; cbn -[showNat updateRows countWords];
    unfold wv in Hv; cbn -[updateRows countWords] in Hv; rewrite Hv;
    (repeat split; try reflexivity;
     [ by rewrite <- !app_assoc
     | eexists _, _; split; [by rewrite <- !app_assoc|];
       split; [reflexivity|]; split; [reflexivity|];
       repeat constructor; intros ???; discriminate ]).
Qed.

End TurnFacts.

(* ===================================================================== *)
(** ** The write of a chunk and its verification *)
(* ===================================================================== *)

(** C3 (as amended): a turn of the loop writes the chunk once, as complete,
    and goes on to the next chunk whatever the verification read shows: the
    rows of the chunk end complete with the delta the store kept, null or
    not; a null delta at the verification only adds a warning to the console;
    the [chunk_complete] message is sent all the same.  No write is retried
    and no chunk is failed. *)
Theorem chunk_write_is_verified_but_never_retried
  (E : Env) (L : Locals) (chunk : ChunkRow) (rest : list ChunkRow) (w : World) :
  let r := reconstructed E (l_job L) (l_skeleton L) chunk (chunks w) in
  let w' := (processChunk E L chunk w).2 in
  chunkWrites (trace w') = chunkWrites (trace w) ++ [(chunk_id chunk, CComplete)]
  ∧ (∀ row, row ∈ chunks w' -> chunk_id row = chunk_id chunk ->
       chunk_status row = CComplete
       ∧ chunkDelta row = persistedDelta E (chunk_id chunk) r.2)
  ∧ (EvWarnVerify (chunkIndex chunk) ∈ drop (length (trace w)) (trace w')
     <-> selectChunk (chunk_id chunk) w' ≫= chunkDelta = None)
  ∧ (∃ m others,
        outbox w' = outbox w ++ ToJob (l_jobId L) (MChunkComplete m) :: others
        ∧ cc_chunkIndex m = chunkIndex chunk)
  ∧ (worker_step E (WInChunk L chunk rest) w).1
    = WBoundary (set_running (l_runningWordCount L + countWords r.1) L) rest.
Proof.
  intros r w'.
  destruct (processChunk_spec E L chunk w)
    as (Hch & _ & _ & _ & _ & Htr & (m & others & Hout & Hidx & _) & HL).
  fold r in Hch, HL. fold w' in Hch, Htr, Hout.
  destruct (getPriorDeltas_snd (l_jobId L) (chunkIndex chunk) w)
    as (warnings & Hsnd & Hww & _).
  rewrite Hsnd in Htr. simpl in Htr.
  split; [|split; [|split; [|split]]].
  - rewrite Htr, <- app_assoc, !chunkWrites_app, Hww. simpl.
    by destruct (selectChunk _ _ ≫= chunkDelta).
  - intros row Hrow Hid. rewrite Hch in Hrow. unfold updateRows in Hrow.
    apply list_elem_of_fmap in Hrow as (row0 & -> & _).
    destruct (decide (chunk_id row0 = chunk_id chunk)) as [_|Hne]; [done|].
    by destruct Hne.
  - rewrite Htr, <- app_assoc, drop_app_length.
    assert (Hnot : EvWarnVerify (chunkIndex chunk) ∉ warnings).
    { clear -Hsnd. unfold getPriorDeltas in Hsnd.
      destruct (decide (chunkIndex chunk = 0)).
      - destruct w. injection Hsnd as Hsnd.
        apply (f_equal length) in Hsnd. rewrite length_app in Hsnd.
        destruct warnings; [apply not_elem_of_nil | simpl in Hsnd; lia].
      - simpl in Hsnd. destruct (decide (0 < _)).
        + injection Hsnd as Hsnd. apply app_inv_head in Hsnd as <-.
          rewrite list_elem_of_singleton. discriminate.
        + destruct w. injection Hsnd as Hsnd.
          apply (f_equal length) in Hsnd. rewrite length_app in Hsnd.
          destruct warnings; [apply not_elem_of_nil | simpl in Hsnd; lia]. }
    rewrite !elem_of_app, !elem_of_cons.
    destruct (selectChunk _ _ ≫= chunkDelta).
    + rewrite elem_of_nil. split; [|done].
      intros [?|[?|[?|?]]]; done.
    + rewrite list_elem_of_singleton. split; [done|]. intros _. by do 3 right.
  - by exists m, others.
  - unfold worker_step. rewrite <- HL. by destruct (processChunk E L chunk w).
Qed.

(** C3 (as stated) fails: with a store that keeps no delta, every
    verification read shows a null delta; yet each chunk is written complete
    exactly once, ends complete with a null delta, and the job completes. *)
Lemma complete_chunk_with_null_delta_and_no_retry :
  chunkWrites (trace (Scenario.after (Stub.env 3 10 false) 20))
  = [(1, CProcessing); (1, CComplete); (2, CProcessing); (2, CComplete);
     (3, CProcessing); (3, CComplete)]
  ∧ (λ c, (chunk_status c, chunkDelta c))
      <$> chunks (Scenario.after (Stub.env 3 10 false) 20)
    = [(CComplete, None); (CComplete, None); (CComplete, None)]
  ∧ trace (Scenario.after (Stub.env 3 10 false) 20)
    = [EvExtract 1;
       EvChunkWrite 1 CProcessing; EvReconstruct 1 0;
       EvChunkWrite 1 CComplete; EvWarnVerify 0;
       EvChunkWrite 2 CProcessing; EvWarnNullPrior [0]; EvReconstruct 1 1;
       EvChunkWrite 2 CComplete; EvWarnVerify 1;
       EvChunkWrite 3 CProcessing; EvWarnNullPrior [0; 1]; EvReconstruct 1 2;
       EvChunkWrite 3 CComplete; EvWarnVerify 2;
       EvStitch 1]
  ∧ Scenario.jobStatus (Scenario.after (Stub.env 3 10 false) 20) = Some JComplete.
Proof. repeat split; vm_compute; reflexivity. Qed.

(* ===================================================================== *)
(** ** Abort *)
(* ===================================================================== *)


Section AbortFacts.

Variable E : Env.





End AbortFacts.


(** C2 (as stated) fails: a job of one chunk whose [abort_job] arrives while
    the chunk is being reconstructed.  The flag is set, and yet the
    [chunk_complete] of the chunk is sent after it, the worker runs to its
    end, the job is complete and no [job_aborted] was ever sent. *)
Lemma abort_during_the_last_chunk_is_ignored :
  isAborted 1 (abortJob 7 1 (Scenario.after (Stub.env 1 10 true) 3)) = true
  ∧ (Scenario.abortedAfter (Stub.env 1 10 true) 3 20).1 = WDone
  ∧ Scenario.jobStatus (Scenario.abortedAfter (Stub.env 1 10 true) 3 20).2
    = Some JComplete
  ∧ Stub.completions
      (drop (length (outbox (abortJob 7 1 (Scenario.after (Stub.env 1 10 true) 3))))
         (outbox (Scenario.abortedAfter (Stub.env 1 10 true) 3 20).2))
    = [0]
  ∧ List.filter Scenario.isAbortedMsg
      (outbox (Scenario.abortedAfter (Stub.env 1 10 true) 3 20).2) = [].
Proof. repeat split; vm_compute; reflexivity. Qed.

(* ===================================================================== *)
(** ** The status of a chunk *)
(* ===================================================================== *)

Section StatusFacts.

Variable E : Env.

Lemma Forall2_updateRows {A} (key : A -> nat) k (f : A -> A) (R : A -> A -> Prop) l :
  (∀ x, key x = k -> R x (f x)) -> (∀ x, R x x) ->
  Forall2 R l (updateRows key k f l).
Proof.
  intros Hf Hrefl. unfold updateRows. apply Forall2_fmap_r, Forall_Forall2_diag.
  apply Forall_forall. intros x _. unfold compose.
  destruct (decide (key x = k)); auto.
Qed.

Lemma cleanup_chunks_sublist cutoff ids : forall acc,
  chunks (fold_left (cleanupJob cutoff) ids acc).2 `sublist_of` chunks acc.2.
Proof.
  induction ids as [|i ids IH]; intros [n w]; simpl; [done|].
  etrans; [apply IH|]. destruct (selectDocument i w); [|done].
  destruct (_ <? _)%Z; [|done]. simpl. apply sublist_filter.
Qed.

(** C8 (as amended): what each operation does to the status of the chunk
    rows.  A turn of a worker changes the rows of one chunk at most: at the
    check before a chunk it writes [processing] on it, whatever its status
    was, and at the end of the chunk it writes [complete].  The client
    operations change no row: [start_job] only adds [pending] rows, the
    sweep only removes rows.  No operation writes [pending] or [failed] on a
    row already there. *)
Theorem chunk_status_is_written_processing_then_complete (wk : Worker) (w : World) :
  Forall2
    (λ r r',
       r' = r
       ∨ (∃ L c rest, wk = WBoundary L (c :: rest) ∧ chunk_id r = chunk_id c
                      ∧ r' = chunk_setProcessing r)
       ∨ (∃ L c rest out n d, wk = WInChunk L c rest ∧ chunk_id r = chunk_id c
                              ∧ r' = chunk_setComplete out n d r))
    (chunks w) (chunks (worker_step E wk w).2)
  ∧ (∀ ws jobId,
       chunks (abortJob ws jobId w) = chunks w
       ∧ chunks (resumeJob ws jobId w).1 = chunks w
       ∧ chunks (getJobStatus ws jobId w) = chunks w)
  ∧ (∀ ws text instructions audience rigor, ∃ created,
       chunks (startStreamingJob E ws text instructions audience rigor w).1
       = chunks w ++ created
       ∧ Forall (λ c, chunk_status c = CPending) created)
  ∧ chunks (cleanupOldJobs w).2 `sublist_of` chunks w.
Proof.
  split; [|split; [|split]].
  - destruct wk as [jobId|job start|L [|c rest]|L c rest|L|]; simpl.
    + unfold beginJob. destruct (selectDocument jobId w); simpl.
      * destruct (activeJobs w !! jobId); simpl;
          apply Forall_Forall2_diag, Forall_forall; auto.
      * apply Forall_Forall2_diag, Forall_forall; auto.
    + unfold afterSkeleton. destruct (isAborted _ _); simpl;
        apply Forall_Forall2_diag, Forall_forall; auto.
    + apply Forall_Forall2_diag, Forall_forall; auto.
    + unfold enterChunk. destruct (isAborted _ _); simpl.
      * apply Forall_Forall2_diag, Forall_forall; auto.
      * apply Forall2_updateRows; [|auto]. intros x Hx. right. left.
        by exists L, c, rest.
    + destruct (processChunk_spec E L c w) as (Hch & _).
      destruct (processChunk E L c w) as [L' w']. simpl in *. rewrite Hch.
      apply Forall2_updateRows; [|auto]. intros x Hx. right. right.
      by eexists L, c, rest, _, _, _.
    + unfold finishJob. destruct (stitchAndValidate _ _ _). simpl.
      apply Forall_Forall2_diag, Forall_forall; auto.
    + apply Forall_Forall2_diag, Forall_forall; auto.
  - intros ws jobId. split; [|split].
    + unfold abortJob. by destruct (activeJobs w !! jobId).
    + unfold resumeJob. destruct (selectDocument jobId w); [|done].
      destruct (decide (doc_status _ = _)); [done|].
      by destruct (decide (is_Some _)).
    + unfold getJobStatus. by destruct (selectDocument jobId w).
  - intros ws text instructions audience rigor.
    unfold startStreamingJob.
    destruct (50000 <? _)%Z; [exists []; by rewrite app_nil_r|].
    destruct (_ <=? 500)%Z; [exists []; by rewrite app_nil_r|].
    destruct (insertDocument _ _ _ _ _ _ _ _ _) as [err|[job w1]] eqn:Hi;
      [exists []; by rewrite app_nil_r|].
    simpl.
    destruct (insertChunks_spec (doc_id job)
                (calculateLengthConfig E (countWords text)
                   (parseTargetLength E instructions ≫= fst)
                   (parseTargetLength E instructions ≫= snd) instructions)
                (smartChunk E text) 0 w1) as (created & Hc & _ & _ & Hst).
    exists created. rewrite Hc.
    unfold insertDocument in Hi. destruct (documentInsertError E text); [done|].
    injection Hi as _ <-. simpl. split; [done|].
    eapply Forall_impl; [exact Hst|]. by intros c [_ ?].
  - apply (cleanup_chunks_sublist _ _ (0, w)).
Qed.

End StatusFacts.

(** C8 (as stated) fails: the worker of the three-chunk job is killed after
    its second chunk; the chunk of index 0 is complete.  [resume_job] starts a
    new worker, whose third turn moves this chunk back to [processing]. *)
Lemma resume_moves_a_complete_chunk_back_to_processing :
  Scenario.statusOf 1 (Scenario.killedAfterChunk (Stub.env 3 10 true) 1)
  = Some CComplete
  ∧ Scenario.statusOf 1 (Scenario.resumedThen (Stub.env 3 10 true) 1 3)
    = Some CProcessing.
Proof. split; vm_compute; reflexivity. Qed.

(* ===================================================================== *)
(** ** Resume *)
(* ===================================================================== *)

Section TableFacts.

Variable E : Env.
Variable jobId : nat.


Lemma sameChunk_setComplete out n d r : sameChunk r (chunk_setComplete out n d r).
Proof. done. Qed.


Lemma sameChunk_trans r1 r2 r3 : sameChunk r1 r2 -> sameChunk r2 r3 -> sameChunk r1 r3.
Proof. unfold sameChunk. congruence. Qed.




Lemma related_weaken (P Q : nat -> Prop) T T' :
  (∀ i, Q i -> P i) -> related P T T' -> related Q T T'.
Proof.
  intros HPQ HR. eapply Forall2_impl; [exact HR|].
  intros r r' [Hs He]. split; [done|]. auto.
Qed.




Lemma processedTable_touches job skeleton c T :
  related (λ i, i ≠ chunk_id c) T (processedTable E job skeleton c T).
Proof.
  unfold related, processedTable, updateRows. rewrite <- list_fmap_compose.
  apply Forall2_fmap_r, Forall_Forall2_diag, Forall_forall. intros r _.
  unfold compose.
  destruct (decide (chunk_id r = chunk_id c)) as [He|He]; simpl.
  - rewrite decide_True by done. by split.
  - rewrite decide_False by done. by split.
Qed.


End TableFacts.

Section LoopFacts.

Variable E : Env.
Variable jobId : nat.


Lemma related_trans (P Q : nat -> Prop) T1 T2 T3 :
  related P T1 T2 -> related Q T2 T3 -> related (λ i, P i ∧ Q i) T1 T3.
Proof.
  apply Forall2_trans. intros x y z [Hs1 He1] [Hs2 He2].
  split; [by eapply sameChunk_trans|].
  intros [HP HQ]. specialize (He1 HP) as ->. by apply He2.
Qed.



Lemma tableLoop_app job skeleton cs1 cs2 T :
  tableLoop E job skeleton (cs1 ++ cs2) T
  = tableLoop E job skeleton cs2 (tableLoop E job skeleton cs1 T).
Proof. unfold tableLoop. by rewrite fold_left_app. Qed.







End LoopFacts.

Section WorkerFacts.

Variable E : Env.

Lemma selectDocument_id jobId w d : selectDocument jobId w = Some d -> doc_id d = jobId.
Proof.
  unfold selectDocument. intros H. apply head_Some_elem_of in H.
  by apply list_elem_of_filter in H as [? _].
Qed.


Lemma sameJob_refl d : sameJob d d.
Proof. by repeat split. Qed.






End WorkerFacts.

Section ResumeFacts.

Variable E : Env.




End ResumeFacts.


(** C1 (as stated) fails: when [resume_job] arrives, the job row holds the
    skeleton and [currentChunk = 2], and the chunks of index 0 and 1 are
    complete.  The resumed run calls the extractor again and reconstructs the
    chunks of index 0 and 1 again before it comes to the chunk of index 2. *)
Lemma resume_calls_the_extractor_and_regenerates_complete_chunks :
  currentChunk <$> selectDocument 1 (Scenario.resumed (Stub.env 3 10 true) 1) = Some 2
  ∧ globalSkeleton <$> selectDocument 1 (Scenario.resumed (Stub.env 3 10 true) 1)
    = Some (Some "{}"%string)
  ∧ Scenario.statusOf 1 (Scenario.resumed (Stub.env 3 10 true) 1) = Some CComplete
  ∧ Scenario.statusOf 2 (Scenario.resumed (Stub.env 3 10 true) 1) = Some CComplete
  ∧ collaboratorCalls
      (drop (length (trace (Scenario.resumed (Stub.env 3 10 true) 1)))
         (trace (Scenario.resumedThen (Stub.env 3 10 true) 1 20)))
    = [EvExtract 1; EvReconstruct 1 0; EvReconstruct 1 1; EvReconstruct 1 2;
       EvStitch 1].
Proof. repeat split; vm_compute; reflexivity. Qed.

(* ===================================================================== *)
(** ** Turns and whole runs *)
(* ===================================================================== *)

Section RunFacts.

Variable E : Env.

Lemma run_worker_done n w : run_worker E n WDone w = (WDone, w).
Proof. induction n as [|n IH]; [done|]. exact IH. Qed.

(** A worker left alone at the top of the loop comes to its end, in two
    turns for each chunk and two more, with the world [chunkLoop] computes. *)
Lemma run_worker_loop todo : forall L w n,
  2 * length todo + 2 ≤ n ->
  run_worker E n (WBoundary L todo) w = (WDone, chunkLoop E L todo w).
Proof.
  induction todo as [|c todo IH]; intros L w n Hn.
  - destruct n as [|[|n]]; [simpl in Hn; lia..|].
    cbn [run_worker worker_step chunkLoop]. apply run_worker_done.
  - destruct n as [|[|n]]; [simpl in Hn; lia..|].
    cbn [run_worker chunkLoop]. unfold worker_step at 1.
    destruct (enterChunk L c w) as [w1|].
    + unfold worker_step at 1. destruct (processChunk E L c w1) as [L' w2].
      apply IH. simpl in Hn. lia.
    + destruct n; [done|]. apply run_worker_done.
Qed.

End RunFacts.

(* ===================================================================== *)
(** ** Whole runs of a worker *)
(* ===================================================================== *)

Section RunProperties.

Variable E : Env.



Lemma runningTotals_app start l1 l2 :
  runningTotals start (l1 ++ l2)
  = runningTotals start l1 ++ runningTotals (foldl Nat.add start l1) l2.
Proof.
  revert start. induction l1 as [|n l1 IH]; intros start; simpl; [done|].
  by rewrite IH.
Qed.


End RunProperties.

Section RunTheorems.

Variable E : Env.

Lemma chunkLoop_unregisters todo : forall L w,
  activeJobs (chunkLoop E L todo w) = delete (l_jobId L) (activeJobs w).
Proof.
  induction todo as [|c todo IH]; intros L w.
  - simpl. unfold finishJob. by destruct (stitchAndValidate _ _ _).
  - cbn [chunkLoop]. unfold enterChunk. destruct (isAborted (l_jobId L) w); [done|].
    set (w1 := updateChunk (chunk_id c) CProcessing chunk_setProcessing w).
    destruct (processChunk_spec E L c w1) as (_ & Hact & _ & _ & _ & _ & _ & HL).
    destruct (processChunk E L c w1) as [L1 w2]. cbn [fst snd] in *. subst L1.
    by rewrite IH, Hact.
Qed.

(** X6: A run of [processJobAsync] to its end removes its job from the active
    jobs, on every path (the job row is missing, the job is not registered,
    the job is aborted, the job completes), and leaves the entries of the
    other jobs alone. *)
Theorem processJobAsync_unregisters_its_job (jobId : nat) (w : World) :
  activeJobs (processJobAsync E jobId w) = delete jobId (activeJobs w).
Proof.
  unfold processJobAsync, beginJob.
  destruct (selectDocument jobId w) as [job|] eqn:Hsel; [|done].
  pose proof (selectDocument_id _ _ _ Hsel) as Hid.
  destruct (activeJobs w !! jobId) as [st|] eqn:Hact.
  - unfold afterSkeleton. rewrite Hid. destruct (isAborted jobId _); [done|].
    rewrite chunkLoop_unregisters. unfold l_jobId. simpl. by rewrite Hid.
  - by rewrite delete_id.
Qed.


End RunTheorems.


Section EndOfRun.

Variable E : Env.







End EndOfRun.


(* ===================================================================== *)
(** ** The client operations *)
(* ===================================================================== *)

Section ClientOperations.

Variable E : Env.

Lemma updateRows_absent {A} (key : A -> nat) k (f : A -> A) (l : list A) :
  head (filter (λ x, key x = k) l) = None -> updateRows key k f l = l.
Proof.
  induction l as [|x l IH]; [done|]. unfold updateRows. rewrite fmap_cons.
  fold (updateRows key k f l).
  destruct (decide (key x = k)) as [He|He].
  - by rewrite filter_cons_True.
  - rewrite filter_cons_False by done. intros H. by rewrite IH.
Qed.

(** X8: A worker started on a job that has no row, or that is not registered as
    active, calls no collaborator and writes nothing: in the first case it
    broadcasts one [job_failed] ("Job N not found"), in the second it returns
    without a word. *)
Theorem processJobAsync_without_row_or_registration (jobId : nat) (w : World) :
  selectDocument jobId w = None ∨ activeJobs w !! jobId = None ->
  documents (processJobAsync E jobId w) = documents w
  ∧ chunks (processJobAsync E jobId w) = chunks w
  ∧ trace (processJobAsync E jobId w) = trace w
  ∧ outbox (processJobAsync E jobId w)
    = outbox w
      ++ match selectDocument jobId w with
         | None =>
             [ToJob jobId
                (MJobFailed jobId ("Job " ++ showNat jobId ++ " not found")%string)]
         | Some _ => []
         end.
Proof.
  intros H. unfold processJobAsync, beginJob.
  destruct (selectDocument jobId w) as [job|] eqn:Hsel.
  - destruct H as [H|H]; [done|]. rewrite H. by rewrite app_nil_r.
  - cbn -[showNat updateRows]. unfold selectDocument in Hsel.
    by rewrite updateRows_absent.
Qed.

(** X14: [resume_job] starts a worker exactly for a job that is in the store, not
    complete (an aborted or a failed job will do) and not already running.
    Accepted, it registers the job as active and not aborted, subscribes the
    socket to it, answers [job_resumed] and leaves the store as it is.
    Refused, it only answers the socket with one message. *)
Theorem resumeJob_accepts_iff_resumable (ws jobId : nat) (w : World) :
  ((resumeJob ws jobId w).2 = Some (WStart jobId) <-> resumable jobId w)
  ∧ ((resumeJob ws jobId w).2 = None <-> ¬ resumable jobId w)
  ∧ (resumable jobId w ->
     documents (resumeJob ws jobId w).1 = documents w
     ∧ chunks (resumeJob ws jobId w).1 = chunks w
     ∧ activeJobs (resumeJob ws jobId w).1
       = <[jobId := {| aborted := false; startTime := now w |}]> (activeJobs w)
     ∧ clientConnections (resumeJob ws jobId w).1
       = <[ws := Some jobId]> (clientConnections w)
     ∧ ∃ job, selectDocument jobId w = Some job
              ∧ outbox (resumeJob ws jobId w).1
                = outbox w
                  ++ [ToClient ws
                        (MJobResumed jobId (doc_status job) (currentChunk job)
                           (numChunks job))])
  ∧ (¬ resumable jobId w ->
     ∃ m, onlySent [ToClient ws m] w (resumeJob ws jobId w).1).
Proof.
  unfold resumeJob, resumable.
  destruct (selectDocument jobId w) as [job|] eqn:Hsel.
  - destruct (decide (doc_status job = JComplete)) as [Hst|Hst].
    + assert (Hno : ¬ ∃ job0, Some job = Some job0 ∧ doc_status job0 ≠ JComplete
                              ∧ activeJobs w !! jobId = None).
      { intros (job0 & [= <-] & Hne & _). done. }
      split; [split; [done|intros H; by destruct Hno]|].
      split; [done|]. split; [intros H; by destruct Hno|].
      intros _. eexists. by repeat split.
    + destruct (decide (is_Some (activeJobs w !! jobId))) as [Hact|Hact].
      * assert (Hno : ¬ ∃ job0, Some job = Some job0 ∧ doc_status job0 ≠ JComplete
                                ∧ activeJobs w !! jobId = None).
        { intros (job0 & _ & _ & Hnone). rewrite Hnone in Hact. by destruct Hact. }
        split; [split; [done|intros H; by destruct Hno]|].
        split; [done|]. split; [intros H; by destruct Hno|].
        intros _. eexists. by repeat split.
      * assert (Hyes : ∃ job0, Some job = Some job0 ∧ doc_status job0 ≠ JComplete
                               ∧ activeJobs w !! jobId = None).
        { exists job. split; [done|]. split; [done|].
          destruct (activeJobs w !! jobId) eqn:Hl; [|done].
          destruct Hact. by eexists. }
        split; [done|]. split; [split; [done|intros H; by destruct H]|].
        split; [|intros H; by destruct H].
        intros _. cbn. repeat split. by exists job.
  - assert (Hno : ¬ ∃ job0, None = Some job0 ∧ doc_status job0 ≠ JComplete
                            ∧ activeJobs w !! jobId = None).
    { intros (job0 & [=] & _). }
    split; [split; [done|intros H; by destruct Hno]|].
    split; [done|]. split; [intros H; by destruct Hno|].
    intros _. eexists. by repeat split.
Qed.

(** X12: [abort_job] never touches the store, the subscriptions or the entries of
    the other jobs.  For a job that is not registered it only answers an
    error.  For a registered job it raises the flag, keeps the start time and
    acknowledges; raising it again changes nothing more of the registry. *)
Theorem abortJob_raises_only_the_flag (ws ws' jobId : nat) (w : World) :
  documents (abortJob ws jobId w) = documents w
  ∧ chunks (abortJob ws jobId w) = chunks w
  ∧ clientConnections (abortJob ws jobId w) = clientConnections w
  ∧ trace (abortJob ws jobId w) = trace w
  ∧ (∀ j, j ≠ jobId -> activeJobs (abortJob ws jobId w) !! j = activeJobs w !! j)
  ∧ activeJobs (abortJob ws jobId w) !! jobId
    = (λ st, {| aborted := true; startTime := startTime st |})
        <$> activeJobs w !! jobId
  ∧ outbox (abortJob ws jobId w)
    = outbox w
      ++ [ToClient ws
            (if activeJobs w !! jobId is Some _ then MAbortAcknowledged jobId
             else MError ("Job " ++ showNat jobId ++ " is not currently running")%string)]
  ∧ activeJobs (abortJob ws' jobId (abortJob ws jobId w))
    = activeJobs (abortJob ws jobId w).
Proof.
  unfold abortJob at 1 2 3 4 5 6 7.
  destruct (activeJobs w !! jobId) as [st|] eqn:Hact.
  - cbn -[showNat]. repeat split.
    + intros j Hj. by rewrite lookup_insert_ne.
    + by rewrite lookup_insert_eq.
    + unfold abortJob. rewrite Hact. cbn. rewrite lookup_insert_eq. cbn.
      by rewrite insert_insert_eq.
  - cbn -[showNat]. repeat split; [done|].
    unfold abortJob. rewrite Hact. cbn -[showNat]. by rewrite Hact.
Qed.

End ClientOperations.

(** The witness: a fresh server knows no job 5. *)
Lemma processJobAsync_without_row_or_registration_witness :
  (selectDocument 5 Stub.emptyWorld = None ∨ activeJobs Stub.emptyWorld !! 5 = None)
  ∧ chunks (processJobAsync (Stub.env 3 10 true) 5 Stub.emptyWorld)
    = chunks Stub.emptyWorld.
Proof.
  assert (H : selectDocument 5 Stub.emptyWorld = None
              ∨ activeJobs Stub.emptyWorld !! 5 = None) by (by left).
  split; [exact H|].
  pose proof (processJobAsync_without_row_or_registration (Stub.env 3 10 true) 5
                Stub.emptyWorld H) as (_ & Hc & _).
  exact Hc.
Defined.

(* ===================================================================== *)
(** ** Counting words *)
(* ===================================================================== *)

Section WordCount.

Lemma nonEmpty_string_of_list (l : list ascii) :
  nonEmpty (string_of_list_ascii l) = match l with [] => false | _ => true end.
Proof. by destruct l. Qed.

Lemma rev_nil_iff {A} (l : list A) : rev l = [] <-> l = [].
Proof.
  split; [|by intros ->]. intros H. apply (f_equal (@rev A)) in H.
  by rewrite rev_involutive in H.
Qed.

Lemma nonEmpty_piece (cur : list ascii) :
  nonEmpty (string_of_list_ascii (rev cur))
  = match cur with [] => false | _ => true end.
Proof.
  rewrite nonEmpty_string_of_list. destruct cur as [|c cur]; [done|].
  destruct (rev (c :: cur)) eqn:H; [|done].
  apply (proj1 (rev_nil_iff _)) in H. discriminate.
Qed.

Lemma splitWsAux_count (s : string) : ∀ cur inSep,
  (inSep = true -> cur = []) ->
  length (List.filter nonEmpty (splitWsAux cur inSep s))
  = (match cur with [] => 0 | _ => 1 end)
    + wordStarts (match cur with [] => true | _ => false end) s.
Proof.
  induction s as [|c r IH]; intros cur inSep Hinv.
  - cbn [splitWsAux List.filter wordStarts]. rewrite nonEmpty_piece.
    by destruct cur.
  - cbn [splitWsAux wordStarts]. destruct (isSpace c) eqn:Hc.
    + destruct inSep.
      * rewrite (Hinv eq_refl). rewrite IH by done. done.
      * cbn [List.filter]. rewrite nonEmpty_piece.
        destruct cur as [|c0 cur]; cbn [length]; rewrite IH by done; done.
    + rewrite IH by done. destruct cur; cbn; lia.
Qed.

Lemma wordStarts_trimEnd (s : string) : ∀ p,
  wordStarts p (trimEnd s) = wordStarts p s.
Proof.
  induction s as [|c r IH]; intros p; [done|].
  cbn [trimEnd wordStarts]. destruct (trimEnd r) as [|c' r'] eqn:Hr.
  - rewrite <- (IH (isSpace c)). cbn [wordStarts].
    destruct (isSpace c) eqn:Hc; cbn [wordStarts negb]; [|by rewrite Hc].
    by rewrite andb_false_r.
  - cbn [wordStarts]. rewrite <- (IH (isSpace c)). done.
Qed.

Lemma wordStarts_trimStart (s : string) :
  wordStarts true (trimStart s) = wordStarts true s.
Proof.
  induction s as [|c r IH]; [done|].
  cbn [trimStart wordStarts]. destruct (isSpace c) eqn:Hc.
  - by rewrite IH.
  - cbn [wordStarts]. by rewrite Hc.
Qed.

Lemma countWords_wordStarts (s : string) : countWords s = wordStarts true s.
Proof.
  unfold countWords, splitWs, trim. rewrite splitWsAux_count by done.
  by rewrite wordStarts_trimEnd, wordStarts_trimStart.
Qed.

Lemma wordStarts_app (a b : string) : ∀ p,
  wordStarts p (a ++ b) = wordStarts p a + wordStarts (endsInSpace p a) b.
Proof.
  induction a as [|c r IH]; intros p; [done|].
  change (String c r ++ b)%string with (String c (r ++ b)).
  cbn [wordStarts endsInSpace]. rewrite IH. lia.
Qed.

Lemma wordStarts_allSpace (s : string) p :
  allSpace s = true -> wordStarts p s = 0.
Proof.
  revert p. induction s as [|c r IH]; intros p H; [done|].
  cbn in H. apply andb_true_iff in H as [Hc Hr].
  cbn [wordStarts]. rewrite Hc, andb_false_r. by rewrite IH.
Qed.

Lemma endsInSpace_allSpace (s : string) p :
  allSpace s = true -> s ≠ EmptyString -> endsInSpace p s = true.
Proof.
  revert p. induction s as [|c r IH]; intros p H Hne; [done|].
  cbn in H. apply andb_true_iff in H as [Hc Hr]. cbn [endsInSpace].
  destruct r as [|c' r']; [done|]. by apply IH.
Qed.

Lemma countWords_separated (a sep b : string) :
  allSpace sep = true -> sep ≠ EmptyString ->
  countWords (a ++ sep ++ b) = countWords a + countWords b.
Proof.
  intros Hs Hne. rewrite !countWords_wordStarts, !wordStarts_app.
  rewrite (wordStarts_allSpace sep) by done.
  assert (He : ∀ p, endsInSpace p sep = true)
    by (intros p; by apply endsInSpace_allSpace).
  rewrite He. lia.
Qed.

Lemma countWords_join (sep : string) (l : list string) :
  allSpace sep = true -> sep ≠ EmptyString ->
  countWords (join sep l) = foldr Nat.add 0 (countWords <$> l).
Proof.
  intros Hs Hne. induction l as [|x l IH]; [done|].
  destruct l as [|y l].
  - cbn [join fmap list_fmap foldr]. lia.
  - change (join sep (x :: y :: l)) with (x ++ sep ++ join sep (y :: l))%string.
    rewrite countWords_separated by done. rewrite IH. done.
Qed.

(** X19: [countWords] counts the maximal runs of code units that are not white
    space.  So white space alone counts nothing, and the count is additive
    over any separator made of white space: counting a text in pieces and
    counting the pieces joined by the separator give the same number. *)
Theorem countWords_is_additive_over_white_space (sep : string) (texts : list string) :
  allSpace sep = true -> sep ≠ EmptyString ->
  countWords sep = 0
  ∧ (∀ s, countWords s = wordStarts true s)
  ∧ countWords (join sep texts) = foldr Nat.add 0 (countWords <$> texts).
Proof.
  intros Hs Hne. split.
  - rewrite countWords_wordStarts. by apply wordStarts_allSpace.
  - split; [apply countWords_wordStarts|]. by apply countWords_join.
Qed.

(** X13: The [job_aborted] message carries the output of the complete chunks of the
    job, in index order and joined by blank lines, and its [wordCount] is the
    sum of the word counts of these outputs. *)
Theorem job_aborted_reports_the_sum_of_the_complete_chunks (jobId : nat) (w : World) :
  let texts :=
    (λ c, default EmptyString (chunkOutputText c)) <$> selectCompleted jobId w in
  ∃ o, outbox (handleAbort jobId w) = outbox w ++ [o]
       ∧ abortedReports o
         = Some (join nlnl texts, foldr Nat.add 0 (countWords <$> texts)).
Proof.
  intros texts. unfold handleAbort. cbn -[countWords join nlnl].
  eexists. split; [reflexivity|]. cbn -[countWords join nlnl].
  rewrite countWords_join by done. done.
Qed.

End WordCount.

(** The witness: two texts joined by a blank line. *)
Lemma countWords_is_additive_over_white_space_witness :
  allSpace nlnl = true ∧ nlnl ≠ EmptyString
  ∧ countWords (join nlnl ["one two"%string; "three"%string])
    = foldr Nat.add 0 (countWords <$> ["one two"%string; "three"%string]).
Proof.
  assert (H1 : allSpace nlnl = true) by reflexivity.
  assert (H2 : nlnl ≠ EmptyString) by discriminate.
  split; [exact H1|]. split; [exact H2|].
  pose proof (countWords_is_additive_over_white_space nlnl
                ["one two"%string; "three"%string] H1 H2) as (_ & _ & H).
  exact H.
Defined.

(* ===================================================================== *)
(** ** What [start_job] leaves behind *)
(* ===================================================================== *)

Section StartedJob.

Variable E : Env.


Lemma insertChunks_memory jobId lc cs : ∀ i w,
  documents (insertChunks jobId lc i cs w) = documents w
  ∧ activeJobs (insertChunks jobId lc i cs w) = activeJobs w
  ∧ clientConnections (insertChunks jobId lc i cs w) = clientConnections w
  ∧ outbox (insertChunks jobId lc i cs w) = outbox w
  ∧ trace (insertChunks jobId lc i cs w) = trace w
  ∧ now (insertChunks jobId lc i cs w) = now w.
Proof.
  induction cs as [|c cs IH]; intros i w; simpl; [done|].
  destruct (IH (S i) (insertChunk (λ id, newChunkRow jobId i id lc c) w))
    as (-> & -> & -> & -> & -> & ->). done.
Qed.

Lemma filter_none {A} (P : A -> Prop) `{∀ x, Decision (P x)} (l : list A) :
  Forall (λ x, ¬ P x) l -> filter P l = [].
Proof.
  induction 1 as [|x l Hx Hl IH]; [done|]. by rewrite filter_cons_False.
Qed.




Lemma head_filter_is_Some {A} (P : A -> Prop) `{∀ x, Decision (P x)} (l : list A) x :
  x ∈ l -> P x -> is_Some (head (filter P l)).
Proof.
  intros Hin HP. destruct (filter P l) as [|y r] eqn:Hf; [|by eexists].
  assert (Hx : x ∈ filter P l) by (by apply list_elem_of_filter).
  rewrite Hf in Hx. by apply elem_of_nil in Hx.
Qed.

Lemma startStreamingJob_worker ws text instructions audience rigor w wk :
  (startStreamingJob E ws text instructions audience rigor w).2 = Some wk ->
  trace (startStreamingJob E ws text instructions audience rigor w).1 = trace w
  ∧ ∃ jobId, wk = WStart jobId
     ∧ activeJobs (startStreamingJob E ws text instructions audience rigor w).1
         !! jobId = Some {| aborted := false; startTime := now w |}
     ∧ clientConnections
         (startStreamingJob E ws text instructions audience rigor w).1 !! ws
       = Some (Some jobId)
     ∧ is_Some (selectDocument jobId
                  (startStreamingJob E ws text instructions audience rigor w).1).
Proof.
  unfold startStreamingJob, insertDocument.
  destruct (50000 <? Z.of_nat (countWords text))%Z; [done|].
  destruct (Z.of_nat (countWords text) <=? 500)%Z; [done|].
  destruct (documentInsertError E text); [done|].
  set (lc := calculateLengthConfig E (countWords text) _ _ _).
  set (job := {| doc_id := nextDocId w; originalText := text |}).
  set (w1 := {| documents := documents w ++ [job] |}).
  destruct (insertChunks_memory (doc_id job) lc (smartChunk E text) 0 w1)
    as (Hd & Ha & Hcc & Ho & Ht & Hn).
  set (w2 := insertChunks (doc_id job) lc 0 (smartChunk E text) w1) in *.
  cbn [fst snd]. intros [= <-]. split; [cbn; by rewrite Ht|].
  exists (doc_id job). split; [done|]. split; [|split].
  - cbn. rewrite Hn. apply lookup_insert_eq.
  - cbn. rewrite Hcc. apply lookup_insert_eq.
  - unfold selectDocument. cbn. rewrite Hd. cbn [documents w1].
    apply (head_filter_is_Some _ _ job); [|done].
    apply elem_of_app. right. by apply list_elem_of_singleton.
Qed.

Lemma startStreamingJob_trace ws text instructions audience rigor w :
  trace (startStreamingJob E ws text instructions audience rigor w).1 = trace w.
Proof.
  unfold startStreamingJob, insertDocument.
  destruct (50000 <? Z.of_nat (countWords text))%Z; [done|].
  destruct (Z.of_nat (countWords text) <=? 500)%Z; [done|].
  destruct (documentInsertError E text); [done|].
  set (lc := calculateLengthConfig E (countWords text) _ _ _).
  set (job := {| doc_id := nextDocId w; originalText := text |}).
  set (w1 := {| documents := documents w ++ [job] |}).
  destruct (insertChunks_memory (doc_id job) lc (smartChunk E text) 0 w1)
    as (Hd & Ha & Hcc & Ho & Ht & Hn).
  set (w2 := insertChunks (doc_id job) lc 0 (smartChunk E text) w1) in *.
  cbn. by rewrite Ht.
Qed.

(** X2: Handling a client message calls no collaborator; only [start_job] can
    write the store; [abort_job] and [get_status] never start a worker; and
    whenever a worker is started, it is the one of a job that has its row in
    the store, is registered as active and not aborted, and to which the
    sending socket is now subscribed. *)
Theorem handleClientMessage_starts_only_registered_workers
  (ws : nat) (message : ClientMessage) (w : World) :
  trace (handleClientMessage E ws message w).1 = trace w
  ∧ (cm_type message ≠ start_job ->
     documents (handleClientMessage E ws message w).1 = documents w
     ∧ chunks (handleClientMessage E ws message w).1 = chunks w)
  ∧ (cm_type message = abort_job ∨ cm_type message = get_status ->
     (handleClientMessage E ws message w).2 = None)
  ∧ (∀ wk, (handleClientMessage E ws message w).2 = Some wk ->
       ∃ jobId, wk = WStart jobId
         ∧ activeJobs (handleClientMessage E ws message w).1 !! jobId
           = Some {| aborted := false; startTime := now w |}
         ∧ clientConnections (handleClientMessage E ws message w).1 !! ws
           = Some (Some jobId)
         ∧ is_Some (selectDocument jobId (handleClientMessage E ws message w).1)).
Proof.
  unfold handleClientMessage. destruct (cm_type message).
  - split; [|split; [done|split; [by intros [|]|]]].
    + destruct (cm_text message) as [[|c t]|]; [done| |done].
      apply startStreamingJob_trace.
    + intros wk. destruct (cm_text message) as [[|c t]|]; [done| |done].
      intros H. by destruct (startStreamingJob_worker _ _ _ _ _ _ _ H).
  - assert (H : ∀ j, trace (abortJob ws j w) = trace w
                     ∧ documents (abortJob ws j w) = documents w
                     ∧ chunks (abortJob ws j w) = chunks w).
    { intros j. unfold abortJob. by destruct (activeJobs w !! j). }
    destruct (cm_jobId message) as [[|j]|]; [done| |done].
    destruct (H (S j)) as (? & ? & ?). by repeat split.
  - assert (H : ∀ j, trace (resumeJob ws j w).1 = trace w
                     ∧ documents (resumeJob ws j w).1 = documents w
                     ∧ chunks (resumeJob ws j w).1 = chunks w
                     ∧ ∀ wk, (resumeJob ws j w).2 = Some wk ->
                         wk = WStart j
                         ∧ activeJobs (resumeJob ws j w).1 !! j
                           = Some {| aborted := false; startTime := now w |}
                         ∧ clientConnections (resumeJob ws j w).1 !! ws
                           = Some (Some j)
                         ∧ is_Some (selectDocument j (resumeJob ws j w).1)).
    { intros j. unfold resumeJob.
      destruct (selectDocument j w) as [job|] eqn:Hsel; [|done].
      destruct (decide (doc_status job = JComplete)); [done|].
      destruct (decide (is_Some (activeJobs w !! j))); [done|].
      cbn. repeat split; try done.
      - by injection H.
      - apply lookup_insert_eq.
      - apply lookup_insert_eq. }
    destruct (cm_jobId message) as [[|j]|]; [done| |done].
    destruct (H (S j)) as (? & ? & ? & Hw).
    split; [done|]. split; [done|]. split; [by intros [|]|].
    intros wk Hwk. exists (S j). by apply Hw.
  - assert (H : ∀ j, trace (getJobStatus ws j w) = trace w
                     ∧ documents (getJobStatus ws j w) = documents w
                     ∧ chunks (getJobStatus ws j w) = chunks w).
    { intros j. unfold getJobStatus. by destruct (selectDocument j w). }
    destruct (cm_jobId message) as [[|j]|]; [done| |done].
    destruct (H (S j)) as (? & ? & ?). by repeat split.
Qed.

End StartedJob.


(* ===================================================================== *)
(** ** The sweep, run again *)
(* ===================================================================== *)

Section SweepAgain.

Lemma cleanupJob_memory cutoff n w i :
  now (cleanupJob cutoff (n, w) i).2 = now w
  ∧ activeJobs (cleanupJob cutoff (n, w) i).2 = activeJobs w
  ∧ clientConnections (cleanupJob cutoff (n, w) i).2 = clientConnections w
  ∧ outbox (cleanupJob cutoff (n, w) i).2 = outbox w
  ∧ trace (cleanupJob cutoff (n, w) i).2 = trace w.
Proof.
  unfold cleanupJob. destruct (selectDocument i w) as [d|]; [|done].
  by destruct (updatedAt d <? cutoff)%Z.
Qed.

Lemma cleanup_memory cutoff ids : ∀ n w,
  now (fold_left (cleanupJob cutoff) ids (n, w)).2 = now w
  ∧ activeJobs (fold_left (cleanupJob cutoff) ids (n, w)).2 = activeJobs w
  ∧ clientConnections (fold_left (cleanupJob cutoff) ids (n, w)).2
    = clientConnections w
  ∧ outbox (fold_left (cleanupJob cutoff) ids (n, w)).2 = outbox w
  ∧ trace (fold_left (cleanupJob cutoff) ids (n, w)).2 = trace w.
Proof.
  induction ids as [|i ids IH]; intros n w; [done|]. cbn [fold_left].
  destruct (cleanupJob_memory cutoff n w i) as (H1 & H2 & H3 & H4 & H5).
  destruct (cleanupJob cutoff (n, w) i) as [n' w'].
  destruct (IH n' w') as (-> & -> & -> & -> & ->). done.
Qed.

Lemma cleanup_nothing_old cutoff ids : ∀ n w,
  Forall (λ i, oldId cutoff (documents w) i = false) ids ->
  fold_left (cleanupJob cutoff) ids (n, w) = (n, w).
Proof.
  induction ids as [|i ids IH]; intros n w H; [done|].
  apply Forall_cons in H as [Hi H]. cbn [fold_left].
  assert (Hstep : cleanupJob cutoff (n, w) i = (n, w)).
  { unfold cleanupJob, oldId, selectDocument in *.
    destruct (head (filter (λ d, doc_id d = i) (documents w))); [|done].
    by rewrite Hi. }
  rewrite Hstep. by apply IH.
Qed.

Variable w0 : World.
Hypothesis ids_unique : NoDup (doc_id <$> documents w0).

(** X18: The sweep only deletes: it keeps the order of the rows it leaves, sends
    nothing and leaves both in-memory maps alone; and a second sweep at the
    same time finds nothing more to delete: it returns 0 and the same world. *)
Theorem cleanup_again_deletes_nothing :
  cleanupOldJobs (cleanupOldJobs w0).2 = (0, (cleanupOldJobs w0).2)
  ∧ documents (cleanupOldJobs w0).2 `sublist_of` documents w0
  ∧ chunks (cleanupOldJobs w0).2 `sublist_of` chunks w0
  ∧ activeJobs (cleanupOldJobs w0).2 = activeJobs w0
  ∧ clientConnections (cleanupOldJobs w0).2 = clientConnections w0
  ∧ outbox (cleanupOldJobs w0).2 = outbox w0.
Proof.
  set (cutoff := (now w0 - dayMs)%Z).
  set (ids := doc_id <$> filter (λ d, doc_status d = JComplete) (documents w0)).
  assert (Hids : NoDup ids).
  { unfold ids. eapply sublist_NoDup; [exact ids_unique|].
    apply fmap_sublist, sublist_filter. }
  assert (Hall : ∀ {A} (f : A -> nat) (l : list A), l = filter (λ x, f x ∉ []) l).
  { intros A f l. induction l as [|x l IH]; [done|].
    rewrite filter_cons_True by apply not_elem_of_nil. by rewrite <- IH. }
  destruct (cleanup_loop w0 ids [] w0) as (_ & Hd & Hc);
    [apply Hall | apply Hall | exact Hids |].
  destruct (cleanup_memory cutoff ids 0 w0) as (Hnow & Hact & Hcon & Hout & _).
  clear Hall. cbn [app length] in Hd, Hc. fold cutoff in Hd, Hc.
  change (fold_left (cleanupJob cutoff) ids (0, w0)) with (cleanupOldJobs w0)
    in Hd, Hc, Hnow, Hact, Hcon, Hout.
  split; [|split; [|split; [|by repeat split]]].
  - unfold cleanupOldJobs at 1. rewrite Hnow. fold cutoff.
    apply cleanup_nothing_old. apply Forall_forall. intros i Hi.
    apply list_elem_of_fmap in Hi as (d & -> & Hdin).
    apply list_elem_of_filter in Hdin as [Hst Hdin].
    rewrite Hd in Hdin. apply list_elem_of_filter in Hdin as [Hnot Hdin].
    assert (Hsame : oldId cutoff (documents (cleanupOldJobs w0).2) (doc_id d)
                    = oldId cutoff (documents w0) (doc_id d)).
    { unfold oldId. rewrite Hd.
      rewrite (filter_filter_implied (λ d0, doc_id d0 = doc_id d)); [done|].
      by intros x ->. }
    rewrite Hsame. destruct (oldId cutoff (documents w0) (doc_id d)) eqn:Hold; [|done].
    exfalso. apply Hnot. apply list_elem_of_filter. split; [done|].
    unfold ids. apply list_elem_of_fmap_2. by apply list_elem_of_filter.
  - rewrite Hd. apply sublist_filter.
  - rewrite Hc. apply sublist_filter.
Qed.

End SweepAgain.

(** The witness: the store of the sample, two days after its jobs ended. *)
Lemma cleanup_again_deletes_nothing_witness :
  NoDup (doc_id <$> documents CleanupSample.twoDaysLater)
  ∧ cleanupOldJobs (cleanupOldJobs CleanupSample.twoDaysLater).2
    = (0, (cleanupOldJobs CleanupSample.twoDaysLater).2).
Proof.
  assert (H : NoDup (doc_id <$> documents CleanupSample.twoDaysLater)).
  { simpl. apply NoDup_cons. split; [|apply NoDup_singleton].
    rewrite list_elem_of_singleton. discriminate. }
  split; [exact H|].
  pose proof (cleanup_again_deletes_nothing CleanupSample.twoDaysLater H) as [H0 _].
  exact H0.
Defined.

(* ===================================================================== *)
(** ** Prior chunks without a delta *)
(* ===================================================================== *)

Section NullDeltas.

Lemma omap_length_filter {A B} (f : A -> option B) (l : list A) :
  length (omap f l) = length (filter (λ x, is_Some (f x)) l).
Proof.
  induction l as [|x l IH]; [done|]. cbn [omap list_omap].
  destruct (f x) as [y|] eqn:Hx.
  - rewrite filter_cons_True by (by rewrite Hx). cbn. by rewrite IH.
  - rewrite filter_cons_False by (rewrite Hx; by intros [? ?]). done.
Qed.

Lemma filter_nil_Forall {A} (P : A -> Prop) `{∀ x, Decision (P x)} (l : list A) :
  filter P l = [] <-> Forall (λ x, ¬ P x) l.
Proof.
  induction l as [|x l IH]; [done|]. destruct (decide (P x)).
  - rewrite filter_cons_True by done. split; [done|].
    intros Hf. by apply Forall_cons in Hf as [? _].
  - rewrite filter_cons_False by done. rewrite IH. split.
    + by constructor.
    + intros Hf. by apply Forall_cons in Hf as [_ ?].
Qed.

Lemma sorted_filter_indices (P : ChunkRow -> Prop) `{∀ x, Decision (P x)}
  (l : list ChunkRow) :
  StronglySorted indexLe l -> StronglySorted Nat.le (chunkIndex <$> filter P l).
Proof.
  induction 1 as [|c l Hl IH Hc]; [constructor|].
  destruct (decide (P c)).
  - rewrite filter_cons_True by done. rewrite fmap_cons. constructor; [done|].
    apply Forall_fmap, Forall_forall. intros x Hx.
    apply list_elem_of_filter in Hx as [_ Hx].
    rewrite Forall_forall in Hc. by apply Hc.
  - by rewrite filter_cons_False.
Qed.

(** X17: [getPriorDeltas] hands on one delta per prior chunk of the job that has
    one: a prior chunk whose delta is null is left out of the context of the
    next chunk.  The only trace of it is a warning on the console, written
    exactly when some prior chunk has no delta, naming the indices of these
    chunks in ascending order; nothing else changes. *)
Theorem getPriorDeltas_leaves_out_null_deltas (jobId k : nat) (w : World) :
  let prior := filter (λ c, documentId c = jobId ∧ chunkIndex c < k) (chunks w) in
  length (getPriorDeltas jobId k w).1
  = length (filter (λ c, is_Some (chunkDelta c)) prior)
  ∧ (trace (getPriorDeltas jobId k w).2 = trace w
     <-> Forall (λ c, is_Some (chunkDelta c)) prior)
  ∧ (∃ warnings indices,
       trace (getPriorDeltas jobId k w).2 = trace w ++ warnings
       ∧ (warnings = [] ∨ warnings = [EvWarnNullPrior indices])
       ∧ StronglySorted Nat.le indices
       ∧ indices ≡ₚ chunkIndex <$> filter (λ c, ¬ is_Some (chunkDelta c)) prior)
  ∧ documents (getPriorDeltas jobId k w).2 = documents w
  ∧ chunks (getPriorDeltas jobId k w).2 = chunks w
  ∧ outbox (getPriorDeltas jobId k w).2 = outbox w.
Proof.
  intros prior. unfold getPriorDeltas.
  set (nulls := filter (λ c, ¬ is_Some (chunkDelta c)) (selectPrior jobId k w)).
  assert (Hperm : selectPrior jobId k w ≡ₚ prior) by apply orderByIndex_perm.
  assert (Hsorted : StronglySorted Nat.le (chunkIndex <$> nulls)).
  { unfold nulls. apply sorted_filter_indices, orderByIndex_sorted. }
  assert (Hnulls : chunkIndex <$> nulls
                   ≡ₚ chunkIndex <$> filter (λ c, ¬ is_Some (chunkDelta c)) prior).
  { unfold nulls. by rewrite Hperm. }
  destruct (decide (k = 0)) as [->|Hk].
  - assert (Hprior : prior = []).
    { unfold prior. apply filter_none. apply Forall_forall. intros c _ [_ ?]. lia. }
    rewrite Hprior. cbn [fst snd]. split; [done|]. split; [done|].
    split; [|done]. exists [], []. rewrite app_nil_r.
    split; [done|]. split; [by left|]. split; [constructor|]. done.
  - cbn [fst snd]. fold nulls. split; [|split; [|split]].
    + rewrite omap_length_filter. by rewrite Hperm.
    + destruct (decide (0 < length nulls)) as [Hlt|Hlt].
      * split.
        -- intros H. cbn in H. exfalso. symmetry in H.
           by apply app_singleton_neq in H.
        -- intros Hall. exfalso.
           assert (Hn : nulls = []).
           { unfold nulls. apply filter_nil_Forall. rewrite Hperm.
             eapply Forall_impl; [exact Hall|]. intros c Hc Hnot. by apply Hnot. }
           rewrite Hn in Hlt. cbn in Hlt. lia.
      * split; [|done]. intros _.
        assert (Hn : nulls = []) by (destruct nulls; [done|cbn in Hlt; lia]).
        apply filter_nil_Forall in Hn. rewrite Hperm in Hn.
        eapply Forall_impl; [exact Hn|]. intros c Hc.
        destruct (decide (is_Some (chunkDelta c))); [done|]. by destruct Hc.
    + exists (if decide (0 < length nulls)
              then [EvWarnNullPrior (chunkIndex <$> nulls)] else []),
             (chunkIndex <$> nulls).
      destruct (decide (0 < length nulls)).
      * cbn. split; [done|]. split; [by right|]. done.
      * rewrite app_nil_r. split; [done|]. split; [by left|]. done.
    + by destruct (decide (0 < length nulls)).
Qed.

End NullDeltas.

(* ===================================================================== *)
(** ** Where an abort is looked at, and where it is not *)
(* ===================================================================== *)

Section AbortWindows.

Variable E : Env.




End AbortWindows.



(* ===================================================================== *)
(** ** The audit trail: what the operations leave in the tables *)
(* ===================================================================== *)

Section AuditTrail.

Import Audit.
Local Open Scope Z_scope.

Lemma throwsAt_0 db :
  throwsAt 0 db <-> ∃ e rest, faults db = Some e :: rest.
Proof.
  unfold throwsAt. destruct (faults db) as [|[e|] rest]; cbn.
  - split; [by intros [? ?]|by intros (? & ? & ?)].
  - split; [by eexists _, _|by eexists].
  - split; [by intros [? ?]|by intros (? & ? & ?)].
Qed.

Lemma throwsAt_1 db :
  throwsAt 1 db <-> ∃ f e rest, faults db = f :: Some e :: rest.
Proof.
  unfold throwsAt. destruct (faults db) as [|f [|[e|] rest]]; cbn.
  - split; [by intros [? ?]|by intros (? & ? & ? & ?)].
  - split; [by intros [? ?]|by intros (? & ? & ? & ?)].
  - split; [by eexists _, _, _|by eexists].
  - split; [by intros [? ?]|by intros (? & ? & ? & ?)].
Qed.

(** X20: The four logging operations are not atomic.  When the audit event goes in
    and the insert of the operation itself then throws, the operation returns
    -1, its own table is as before, and the audit event it logged first stays
    in the audit table. *)
Theorem failed_operation_leaves_its_audit_event (db : Db) :
  ¬ throwsAt 0 db -> throwsAt 1 db ->
  (∀ params,
     (logLLMCall params db).1 = Ok (-1)
     ∧ onlyLogged (llmCallEvent params) db (logLLMCall params db).2)
  ∧ (∀ params,
       (logChunkProcessing params db).1 = Ok (-1)
       ∧ onlyLogged (chunkProcessingEvent params) db (logChunkProcessing params db).2)
  ∧ (∀ params,
       (logLengthEnforcement params db).1 = Ok (-1)
       ∧ onlyLogged (lengthEnforcementEvent params) db
           (logLengthEnforcement params db).2)
  ∧ (∀ params,
       (createJobHistoryEntry params db).1 = Ok (-1)
       ∧ onlyLogged (jobCreatedEvent params) db (createJobHistoryEntry params db).2).
Proof.
  intros H0 H1. apply throwsAt_1 in H1 as (f & e & rest & Hf).
  assert (Hnone : f = None).
  { destruct f as [e0|]; [|done]. exfalso. apply H0, throwsAt_0.
    rewrite Hf. by eexists _, _. }
  subst f.
  repeat split; intros;
    unfold logLLMCall, logChunkProcessing, logLengthEnforcement,
      createJobHistoryEntry, logAuditEvent, try_catch, bind, insert, ret;
    cbn; rewrite Hf; cbn; reflexivity.
Qed.

(** X21: When its own insert goes through, [logLLMCall] appends one row to
    [llm_calls] and returns its id.  The row keeps the parameters; its status
    is the one given, or "success" when none (or an empty one) is given; it is
    linked to the audit event logged just before, or to none when that event
    could not be logged. *)
Theorem logLLMCall_links_its_row_to_the_audit_event (params : LlmCallParams) (db : Db) :
  ¬ throwsAt 1 db ->
  ∃ row,
    llmCalls (logLLMCall params db).2 = llmCalls db ++ [row]
    ∧ (logLLMCall params db).1
      = Ok (Z.of_nat (length (llmCalls (logLLMCall params db).2)))
    ∧ lr_params row = params
    ∧ lr_status row
      = match lc_status params with
        | None | Some EmptyString => "success"%string
        | Some s => s
        end
    ∧ (throwsAt 0 db ->
       lr_auditEventId row = None
       ∧ auditEvents (logLLMCall params db).2 = auditEvents db)
    ∧ (¬ throwsAt 0 db ->
       lr_auditEventId row
       = Some (Z.of_nat (length (auditEvents (logLLMCall params db).2)))
       ∧ auditEvents (logLLMCall params db).2
         = auditEvents db ++ [llmCallEvent params]).
Proof.
  intros H1. rewrite throwsAt_1 in H1.
  assert (Hyes : ∀ P : Prop, (∃ e rest, faults db = Some e :: rest) -> ¬ throwsAt 0 db -> P).
  { intros P H Hn. exfalso. by apply Hn, throwsAt_0. }
  assert (Hno : ∀ P : Prop, (¬ ∃ e rest, faults db = Some e :: rest) -> throwsAt 0 db -> P).
  { intros P H Hn. exfalso. by apply H, throwsAt_0. }
  unfold logLLMCall, logAuditEvent, try_catch, bind, insert, ret. cbn.
  destruct (faults db) as [|[e0|] [|[e1|] rest]] eqn:Hf; cbn;
    try (exfalso; apply H1; by eexists _, _, _);
    (eexists; split; [reflexivity|]; rewrite length_app; cbn;
     split; [f_equal; lia|]; split; [done|]; split; [done|]).
  - split; [apply Hno; by intros (? & ? & ?)|]. intros _.
    rewrite length_app. cbn. split; [|done]. repeat f_equal. lia.
  - split; [done|]. apply Hyes. by eexists _, _.
  - split; [done|]. apply Hyes. by eexists _, _.
  - split; [apply Hno; by intros (? & ? & ?)|]. intros _.
    rewrite length_app. cbn. split; [|done]. repeat f_equal. lia.
  - split; [apply Hno; by intros (? & ? & ?)|]. intros _.
    rewrite length_app. cbn. split; [|done]. repeat f_equal. lia.
Qed.

(** X22: [updateJobHistoryStatus] never throws and never writes [job_history]: the
    row [createJobHistoryEntry] inserted keeps the status it was created with.
    All the operation does is log one [job_status_update] audit event, when
    the insert of that event goes through. *)
Theorem updateJobHistoryStatus_only_logs_an_event
  (update : JobStatusUpdateParams) (db : Db) :
  (updateJobHistoryStatus update db).1 = Ok tt
  ∧ jobHistory (updateJobHistoryStatus update db).2 = jobHistory db
  ∧ llmCalls (updateJobHistoryStatus update db).2 = llmCalls db
  ∧ chunkProcessingLogs (updateJobHistoryStatus update db).2 = chunkProcessingLogs db
  ∧ lengthEnforcementLogs (updateJobHistoryStatus update db).2
    = lengthEnforcementLogs db
  ∧ auditEvents (updateJobHistoryStatus update db).2
    = auditEvents db
      ++ (if decide (throwsAt 0 db) then [] else [statusUpdateEvent update])
  ∧ (∀ created,
       jobHistory
         (updateJobHistoryStatus update (createJobHistoryEntry created db).2).2
       = jobHistory db ++ (if decide (throwsAt 1 db) then [] else [created])).
Proof.
  assert (Hu : ∀ d,
    (updateJobHistoryStatus update d).1 = Ok tt
    ∧ jobHistory (updateJobHistoryStatus update d).2 = jobHistory d
    ∧ llmCalls (updateJobHistoryStatus update d).2 = llmCalls d
    ∧ chunkProcessingLogs (updateJobHistoryStatus update d).2 = chunkProcessingLogs d
    ∧ lengthEnforcementLogs (updateJobHistoryStatus update d).2
      = lengthEnforcementLogs d
    ∧ auditEvents (updateJobHistoryStatus update d).2
      = auditEvents d
        ++ (if decide (throwsAt 0 d) then [] else [statusUpdateEvent update])).
  { intros d. destruct (decide (throwsAt 0 d)) as [H|H]; rewrite throwsAt_0 in H;
      unfold updateJobHistoryStatus, logAuditEvent, try_catch, bind, insert, ret; cbn.
    - destruct H as (e & rest & ->). cbn. by rewrite app_nil_r.
    - destruct (faults d) as [|[e|] rest]; cbn; [done| |done].
      exfalso. apply H. by eexists _, _. }
  destruct (Hu db) as (H1 & H2 & H3 & H4 & H5 & H6).
  repeat (split; [assumption|]). clear H1 H2 H3 H4 H5 H6.
  intros created. destruct (Hu (createJobHistoryEntry created db).2) as (_ & -> & _).
  clear Hu.
  destruct (decide (throwsAt 1 db)) as [H|H]; rewrite throwsAt_1 in H;
    unfold createJobHistoryEntry, logAuditEvent, try_catch, bind, insert, ret; cbn.
  - destruct H as (f & e & rest & ->). destruct f; cbn; by rewrite app_nil_r.
  - destruct (faults db) as [|[e0|] [|[e1|] rest]]; cbn; try done.
    + exfalso. apply H. by eexists _, _, _.
    + exfalso. apply H. by eexists _, _, _.
Qed.

Lemma length_substring (s : string) : ∀ n,
  (n <= String.length s)%nat -> String.length (substring 0 n s) = n.
Proof.
  induction s as [|c s IH]; intros [|n] H; cbn in *; try done; try lia.
  rewrite IH; lia.
Qed.

Lemma length_append (a b : string) :
  String.length (a ++ b) = (String.length a + String.length b)%nat.
Proof.
  induction a as [|c a IH]; [done|].
  change (String.length (String c a ++ b)) with (S (String.length (a ++ b))).
  by rewrite IH.
Qed.

Lemma substring_append (a b : string) n :
  String.length a = n -> substring 0 n (a ++ b) = a.
Proof.
  revert n. induction a as [|c a IH]; intros n <-.
  - by destruct b.
  - change (substring 0 (String.length (String c a)) (String c a ++ b))
      with (String c (substring 0 (String.length a) (a ++ b))).
    by rewrite IH.
Qed.

Lemma substring_prefix (s : string) : ∀ n,
  String.prefix (substring 0 n s) s = true.
Proof.
  induction s as [|c s IH]; intros [|n]; cbn; try done.
  destruct (ascii_dec c c); [apply IH|done].
Qed.

(** X23: [summarizeText] returns a text of at most [maxLength] code units
    unchanged, and cuts a longer one to its first [maxLength] code units
    followed by three dots.  So the summary counts at most [maxLength + 3]
    code units, up to three more than the limit, and summarizing it anew with
    the same limit gives it back. *)
Theorem summarizeText_length (text : string) (maxLength : option nat) :
  let n := default 200%nat maxLength in
  (String.length text <= n -> summarizeText text maxLength = text)%nat
  ∧ (n < String.length text ->
     ∃ head, summarizeText text maxLength = (head ++ "...")%string
             ∧ String.length head = n ∧ String.prefix head text = true
             ∧ summarizeText (summarizeText text maxLength) maxLength
               = summarizeText text maxLength)%nat
  ∧ (String.length (summarizeText text maxLength) <= n + 3)%nat.
Proof.
  intros n. unfold summarizeText. fold n.
  destruct (Nat.leb_spec (String.length text) n) as [Hle|Hgt].
  - split; [done|]. split; [lia|]. lia.
  - split; [lia|]. split.
    + intros _. exists (substring 0 n text). split; [done|].
      split; [apply length_substring; lia|]. split; [apply substring_prefix|].
      change (String.length (substring 0 n text ++ "...") <=? n)%nat
        with (String.length (substring 0 n text ++ "...") <=? n)%nat.
      rewrite length_append, length_substring by lia. cbn [String.length].
      destruct (Nat.leb_spec (n + 3) n) as [?|_]; [lia|].
      by rewrite substring_append by (apply length_substring; lia).
    + rewrite length_append, length_substring by lia. cbn. lia.
Qed.

End AuditTrail.

(** The witness: the audit event goes in, the insert into [llm_calls] throws. *)
Lemma failed_operation_leaves_its_audit_event_witness :
  ¬ Audit.throwsAt 0 (AuditSample.db [None; Some "relation llm_calls is locked"%string])
  ∧ Audit.throwsAt 1 (AuditSample.db [None; Some "relation llm_calls is locked"%string])
  ∧ (Audit.logLLMCall AuditSample.llmCall
       (AuditSample.db [None; Some "relation llm_calls is locked"%string])).1
    = Audit.Ok (-1)%Z.
Proof.
  assert (H0 : ¬ Audit.throwsAt 0
                   (AuditSample.db [None; Some "relation llm_calls is locked"%string]))
    by (by intros [? ?]).
  assert (H1 : Audit.throwsAt 1
                 (AuditSample.db [None; Some "relation llm_calls is locked"%string]))
    by (by eexists).
  split; [exact H0|]. split; [exact H1|].
  pose proof (failed_operation_leaves_its_audit_event _ H0 H1) as [H _].
  destruct (H AuditSample.llmCall) as [Hr _]. exact Hr.
Defined.

(** The witness: a database that takes every insert. *)
Lemma logLLMCall_links_its_row_to_the_audit_event_witness :
  ¬ Audit.throwsAt 1 (AuditSample.db [])
  ∧ ∃ row,
      Audit.llmCalls (Audit.logLLMCall AuditSample.llmCall (AuditSample.db [])).2
      = Audit.llmCalls (AuditSample.db []) ++ [row]
      ∧ Audit.lr_params row = AuditSample.llmCall.
Proof.
  assert (H1 : ¬ Audit.throwsAt 1 (AuditSample.db [])) by (by intros [? ?]).
  split; [exact H1|].
  destruct (logLLMCall_links_its_row_to_the_audit_event AuditSample.llmCall _ H1)
    as (row & Hrow & _ & Hp & _).
  exists row. split; [exact Hrow | exact Hp].
Defined.

(* ===================================================================== *)
(** ** The text the streaming modal shows *)
(* ===================================================================== *)

Section ModalContent.

Import StreamingModal.







End ModalContent.

(* ===================================================================== *)
(** ** A run and the other jobs *)
(* ===================================================================== *)

Section OtherJobs.

Variable E : Env.

Lemma otherJobsKept_refl jobId D : otherJobsKept jobId D D.
Proof. apply Forall_Forall2_diag, Forall_forall. by intros d _. Qed.

Lemma otherJobsKept_trans jobId D1 D2 D3 :
  otherJobsKept jobId D1 D2 -> otherJobsKept jobId D2 D3 -> otherJobsKept jobId D1 D3.
Proof.
  apply Forall2_trans. intros x y z [Hi1 He1] [Hi2 He2].
  split; [congruence|]. intros Hne. rewrite <- (He1 Hne). apply He2. congruence.
Qed.

Lemma otherJobsKept_update jobId (f : DocRow -> DocRow) D :
  (∀ d, doc_id (f d) = doc_id d) ->
  otherJobsKept jobId D (updateRows doc_id jobId f D).
Proof.
  intros Hf. unfold otherJobsKept, updateRows.
  apply Forall2_fmap_r, Forall_Forall2_diag, Forall_forall. intros d _.
  unfold compose. destruct (decide (doc_id d = jobId)); [|done]. by split.
Qed.

Lemma related_refl (P : nat -> Prop) T : related P T T.
Proof. apply Forall_Forall2_diag, Forall_forall. by intros r _. Qed.

Lemma handleAbort_frame jobId w :
  otherJobsKept jobId (documents w) (documents (handleAbort jobId w))
  ∧ chunks (handleAbort jobId w) = chunks w
  ∧ memoryKept jobId w (handleAbort jobId w).
Proof.
  unfold handleAbort. cbn -[updateRows countWords join nlnl].
  split; [by apply otherJobsKept_update|]. by repeat split.
Qed.

Lemma processChunk_counters L c w :
  nextDocId (processChunk E L c w).2 = nextDocId w
  ∧ nextChunkId (processChunk E L c w).2 = nextChunkId w.
Proof.
  unfold processChunk.
  destruct (getPriorDeltas_snd (l_jobId L) (chunkIndex c) w) as (warnings & Hsnd & _).
  destruct (getPriorDeltas (l_jobId L) (chunkIndex c) w) as [ds wp].
  cbn [snd] in Hsnd. subst wp.
  destruct (reconstructChunkConstrained E _ _ _ _ _ _) as [out delta].
  set (wv := updateChunk (chunk_id c) CComplete _ _).
  assert (Hv : nextDocId wv = nextDocId w ∧ nextChunkId wv = nextChunkId w) by done.
  destruct (selectChunk (chunk_id c) wv ≫= chunkDelta);
    destruct (lengthWarning _ _ _ _); exact Hv.
Qed.

Lemma chunkLoop_frame todo : ∀ L w,
  otherJobsKept (l_jobId L) (documents w) (documents (chunkLoop E L todo w))
  ∧ related (λ i, i ∉ chunk_id <$> todo) (chunks w) (chunks (chunkLoop E L todo w))
  ∧ memoryKept (l_jobId L) w (chunkLoop E L todo w).
Proof.
  induction todo as [|c todo IH]; intros L w.
  - cbn [chunkLoop]. unfold finishJob.
    destruct (stitchAndValidate _ _ _) as [out sr].
    cbn -[updateRows countWords]. split; [|split; [apply related_refl|by repeat split]].
    eapply otherJobsKept_trans; by apply otherJobsKept_update.
  - cbn [chunkLoop]. unfold enterChunk.
    destruct (isAborted (l_jobId L) w).
    { destruct (handleAbort_frame (l_jobId L) w) as (Hd & -> & Hm).
      split; [exact Hd|]. split; [apply related_refl|exact Hm]. }
    set (w1 := updateChunk (chunk_id c) CProcessing chunk_setProcessing w).
    destruct (processChunk_spec E L c w1)
      as (Hch & Hact & Hcon & _ & Hdocs & _ & _ & HL).
    assert (Hids : nextDocId (processChunk E L c w1).2 = nextDocId w
                   ∧ nextChunkId (processChunk E L c w1).2 = nextChunkId w)
      by apply (processChunk_counters L c w1).
    destruct Hids as [Hnd Hnc].
    destruct (processChunk E L c w1) as [L1 w2]. cbn [fst snd] in *. subst L1.
    set (L1 := set_running _ L).
    destruct (IH L1 w2) as (Hd2 & Hc2 & Hn1 & Hn2 & Hcc2 & Ha2).
    change (l_jobId L1) with (l_jobId L) in *.
    split; [|split].
    + eapply otherJobsKept_trans; [|exact Hd2]. rewrite Hdocs.
      by apply otherJobsKept_update.
    + eapply related_weaken;
        [|eapply related_trans; [apply (processedTable_touches E (l_job L) (l_skeleton L) c)|]].
      * intros i Hi. rewrite fmap_cons, not_elem_of_cons in Hi. exact Hi.
      * unfold processedTable. fold w1 in Hch.
        change (updateRows chunk_id (chunk_id c) chunk_setProcessing (chunks w))
          with (chunks w1).
        rewrite <- Hch. exact Hc2.
    + unfold memoryKept. rewrite Hn1, Hn2, Hcc2, Ha2, Hnd, Hnc, Hcon, Hact. done.
Qed.

(** X7: A run of [processJobAsync], on whatever path it ends, keeps both tables
    row for row: no row is added, removed or moved.  In the job table it
    changes the row of its job at most; in the chunk table it changes only
    rows that carry the id of a chunk of its job, and of these only the
    output, the delta and the status.  It leaves the serial counters and the
    subscriptions as they are, and of the active jobs it removes its own. *)
Theorem run_leaves_the_other_jobs_alone (jobId : nat) (w : World) :
  otherJobsKept jobId (documents w) (documents (processJobAsync E jobId w))
  ∧ related (λ i, i ∉ chunk_id <$> selectChunks jobId w)
      (chunks w) (chunks (processJobAsync E jobId w))
  ∧ nextDocId (processJobAsync E jobId w) = nextDocId w
  ∧ nextChunkId (processJobAsync E jobId w) = nextChunkId w
  ∧ clientConnections (processJobAsync E jobId w) = clientConnections w
  ∧ (∀ j, j ≠ jobId ->
       activeJobs (processJobAsync E jobId w) !! j = activeJobs w !! j).
Proof.
  unfold processJobAsync, beginJob.
  destruct (selectDocument jobId w) as [job|] eqn:Hsel.
  - pose proof (selectDocument_id _ _ _ Hsel) as Hid.
    destruct (activeJobs w !! jobId) as [st|] eqn:Hact.
    + unfold afterSkeleton. rewrite Hid.
      set (w1 := updateDocument jobId (doc_setSkeleton _ _) _).
      assert (Hd1 : otherJobsKept jobId (documents w) (documents w1)).
      { unfold w1. cbn -[updateRows].
        eapply otherJobsKept_trans; by apply otherJobsKept_update. }
      destruct (isAborted jobId w1).
      * destruct (handleAbort_frame jobId w1) as (Hd & Hc & Hn1 & Hn2 & Hcc & Ha).
        split; [by eapply otherJobsKept_trans|].
        split; [rewrite Hc; apply related_refl|].
        rewrite Hn1, Hn2, Hcc, Ha. repeat split.
        intros j Hj. by rewrite lookup_delete_ne.
      * set (L := {| l_job := job |}).
        set (w2 := broadcastProgress jobId PhChunkProcessing _ None w1).
        destruct (chunkLoop_frame (selectChunks jobId w2) L w2)
          as (Hd & Hc & Hn1 & Hn2 & Hcc & Ha).
        change (l_jobId L) with (doc_id job) in *. rewrite Hid in *.
        split; [by eapply otherJobsKept_trans|]. split; [exact Hc|].
        rewrite Hn1, Hn2, Hcc, Ha. repeat split.
        intros j Hj. by rewrite lookup_delete_ne.
    + split; [apply otherJobsKept_refl|]. split; [apply related_refl|done].
  - cbn -[updateRows showNat]. split; [by apply otherJobsKept_update|].
    split; [apply related_refl|]. repeat split.
    intros j Hj. by rewrite lookup_delete_ne.
Qed.

End OtherJobs.

(* ===================================================================== *)
(** ** The status of a job that ran to its end *)
(* ===================================================================== *)

Section StatusAfterRun.

Variable E : Env.




End StatusAfterRun.

